(** * gopcp.v2/chapter3/socket/tcp_socket.go

    A shallow embedding of the delimiter-framed TCP cube-root server:
    the framing codec ([read], [write]), the request parser
    ([strToInt32]), the per-connection loop ([handleConn]), the accept
    loop ([serverGo]) and the use that [main] and the spawned tasks make
    of the package-level [sync.WaitGroup].

    Go strings are byte sequences and are modelled by [string]; a
    [[]byte] is a [list ascii].  [int], [int64] and [int32] values are
    [Z] with their ranges written out. *)

From Stdlib Require Import ZArith List String Ascii Bool Lia.
From Stdlib Require Import DecimalString DecimalPos DecimalZ.
Import ListNotations.
Open Scope string_scope.
Open Scope Z_scope.

(** ** Constants *)

(** [DELIMITER = '\t'] *)
Definition DELIMITER : ascii := "009"%char.

(** [math.MaxInt32], [math.MinInt32] *)
Definition MaxInt32 : Z := 2147483647.
Definition MinInt32 : Z := -2147483648.

(** [strconv.IntSize]: the width of [int]; 64 on the usual platforms. *)
Definition IntSize : Z := 64.

(** ** Errors *)

(** The error values the program meets.  [EOF] is [io.EOF], compared by
    identity in [handleConn]; [NetError] stands for what the [net]
    package returns (a timeout among them); [Errorf] is an error built
    by [fmt.Errorf] with its message. *)
Inductive error : Type :=
| EOF
| NetError (timeout : bool) (msg : string)
| Errorf (msg : string).

(** [err.Error()] *)
Definition Error (e : error) : string :=
  match e with
  | EOF => "EOF"
  | NetError _ msg => msg
  | Errorf msg => msg
  end.

Definition is_EOF (e : error) : bool :=
  match e with EOF => true | _ => false end.

(** ** Formatting verbs *)

(** The one-character string holding a double quote. *)
Definition dquote : string := String "034"%char EmptyString.

(** [%d] of an integer. *)
Definition fmt_d (z : Z) : string := NilZero.string_of_int (Z.to_int z).

(** ** strconv.ParseInt, base 10 *)

Module strconv.

(** The two failures of the package. *)
Inductive NumErr : Type := ErrSyntax | ErrRange.

Definition digit (c : ascii) : option Z :=
  let n := Z.of_nat (nat_of_ascii c) in
  if (48 <=? n) && (n <=? 57) then Some (n - 48) else None.

Definition maxUint64 : Z := 2 ^ 64 - 1.

(** The digit loop of [ParseUint] in base 10: [n] is the accumulator,
    [maxVal] is [1<<bitSize - 1].  A character that is not a digit is a
    syntax error; an accumulator at or over [maxUint64/10 + 1], or a
    sum over [maxVal], is a range error. *)
Fixpoint uint_loop (maxVal : Z) (s : string) (n : Z) : Z + NumErr :=
  match s with
  | EmptyString => inl n
  | String c rest =>
      match digit c with
      | None => inr ErrSyntax
      | Some d =>
          if maxUint64 / 10 + 1 <=? n then inr ErrRange
          else
            let n10 := n * 10 in
            let n1 := n10 + d in
            if (maxUint64 <? n1) || (maxVal <? n1) then inr ErrRange
            else uint_loop maxVal rest n1
      end
  end.

(** [ParseUint(s, 10, bitSize)]; a range error carries [maxVal]. *)
Definition ParseUint10 (s : string) (bitSize : Z) : Z * option NumErr :=
  match s with
  | EmptyString => (0, Some ErrSyntax)
  | _ =>
      let bitSize := if bitSize =? 0 then IntSize else bitSize in
      let maxVal := 2 ^ bitSize - 1 in
      match uint_loop maxVal s 0 with
      | inl n => (n, None)
      | inr ErrSyntax => (0, Some ErrSyntax)
      | inr ErrRange => (maxVal, Some ErrRange)
      end
  end.

(** [ParseInt(s, 10, bitSize)] *)
Definition ParseInt10 (s : string) (bitSize : Z) : Z * option NumErr :=
  match s with
  | EmptyString => (0, Some ErrSyntax)
  | String c0 rest =>
      let '(neg, s') :=
        if Ascii.eqb c0 "+" then (false, rest)
        else if Ascii.eqb c0 "-" then (true, rest)
        else (false, s) in
      match ParseUint10 s' bitSize with
      | (_, Some ErrSyntax) => (0, Some ErrSyntax)
      | (un, _) =>
          let bitSize := if bitSize =? 0 then IntSize else bitSize in
          let cutoff := 2 ^ (bitSize - 1) in
          if negb neg && (cutoff <=? un) then (cutoff - 1, Some ErrRange)
          else if neg && (cutoff <? un) then (- cutoff, Some ErrRange)
          else (if neg then - un else un, None)
      end
  end.

End strconv.

(** ** Request processor *)

(** [strToInt32]: the parse is made at the width of [int]
    ([bitSize = 0]); every parse error gives the "is not integer"
    failure, a parsed value outside [int32] the "is not 32-bit integer"
    one. *)
Definition strToInt32 (str : string) : Z * option error :=
  let '(num, err) := strconv.ParseInt10 str 0 in
  match err with
  | Some _ =>
      (0, Some (Errorf (dquote ++ str ++ dquote ++ " is not integer")))
  | None =>
      if (MaxInt32 <? num) || (num <? MinInt32) then
        (0, Some (Errorf (fmt_d num ++ " is not 32-bit integer")))
      else (num, None)
  end.

(** ** The connection *)

(** [time.Second], in nanoseconds. *)
Definition Second : Z := 1000000000.

(** What a call of [conn.Read] on a one-byte slice can meet next on the
    stream: a byte that reaches the socket at time [t]; a return of
    [n = 0] with a nil error; a transport failure.  A stream with
    nothing left is one the peer has closed. *)
Inductive ReadEvent : Type :=
| Arrive (t : Z) (b : ascii)
| ZeroRead
| ReadFail (e : error).

(** What the next call of [conn.Write] does: take the whole slice, or
    fail with [e] after [n] bytes. *)
Inductive WriteOutcome : Type :=
| WriteOk
| WriteFail (n : Z) (e : error).

(** A [net.Conn] as its owner sees it: the stream still to be read, the
    outcomes of the writes to come (all succeed once the list is used
    up), the slice passed to each [Write] call so far (latest first),
    the bytes put on the wire, the read deadline, the local time and
    the number of [Close] calls. *)
Record Conn : Type := mkConn {
  incoming : list ReadEvent;
  wscript : list WriteOutcome;
  wcalls : list (list ascii);
  wire : list ascii;
  readDeadline : option Z;
  clock : Z;
  closed : nat;
  remoteAddr : string
}.

Definition with_incoming (c : Conn) (evs : list ReadEvent) (now : Z) : Conn :=
  mkConn evs (wscript c) (wcalls c) (wire c) (readDeadline c) now
         (closed c) (remoteAddr c).

(** [conn.SetReadDeadline(t)] *)
Definition SetReadDeadline (c : Conn) (t : Z) : Conn :=
  mkConn (incoming c) (wscript c) (wcalls c) (wire c) (Some t) (clock c)
         (closed c) (remoteAddr c).

(** [conn.Close()] *)
Definition Close (c : Conn) : Conn :=
  mkConn (incoming c) (wscript c) (wcalls c) (wire c) (readDeadline c)
         (clock c) (S (closed c)) (remoteAddr c).

Definition before_deadline (c : Conn) (t : Z) : bool :=
  match readDeadline c with
  | None => true
  | Some d => t <=? d
  end.

Definition timeoutError : error := NetError true "i/o timeout".

(** [conn.Read(readBytes)] with [len(readBytes) = 1]: the slice after the
    call, the count and the error.  The slice is written only when a
    byte is delivered.  A byte that arrives after the deadline stays on
    the stream and the call fails with a timeout at the deadline. *)
Definition conn_Read (c : Conn) (readBytes : ascii)
  : Conn * ascii * Z * option error :=
  match incoming c with
  | [] => (c, readBytes, 0, Some EOF)
  | Arrive t b :: rest =>
      if before_deadline c t
      then (with_incoming c rest (Z.max (clock c) t), b, 1, None)
      else (with_incoming c (incoming c)
              (match readDeadline c with
               | Some d => Z.max (clock c) d
               | None => clock c
               end),
            readBytes, 0, Some timeoutError)
  | ZeroRead :: rest => (with_incoming c rest (clock c), readBytes, 0, None)
  | ReadFail e :: rest => (with_incoming c rest (clock c), readBytes, 0, Some e)
  end.

(** [conn.Write(p)] *)
Definition conn_Write (c : Conn) (p : list ascii) : Conn * Z * option error :=
  match wscript c with
  | [] =>
      (mkConn (incoming c) [] (p :: wcalls c) (wire c ++ p)%list
              (readDeadline c) (clock c) (closed c) (remoteAddr c),
       Z.of_nat (List.length p), None)
  | WriteOk :: ws =>
      (mkConn (incoming c) ws (p :: wcalls c) (wire c ++ p)%list
              (readDeadline c) (clock c) (closed c) (remoteAddr c),
       Z.of_nat (List.length p), None)
  | WriteFail n e :: ws =>
      (mkConn (incoming c) ws (p :: wcalls c)
              (wire c ++ firstn (Z.to_nat n) p)%list
              (readDeadline c) (clock c) (closed c) (remoteAddr c),
       n, Some e)
  end.

(** ** Framing codec *)

(** The loop of [read]: [readBytes] is the one-byte slice, [buffer] the
    bytes gathered so far.  The count returned by [conn.Read] is
    dropped, as in the source; only the error is looked at.  [None]
    stands for a loop that has not ended within [fuel] turns. *)
Fixpoint read_loop (fuel : nat) (c : Conn) (readBytes : ascii)
         (buffer : list ascii) : option (Conn * string * option error) :=
  match fuel with
  | O => None
  | S fuel' =>
      let '(c1, readBytes1, _, err) := conn_Read c readBytes in
      match err with
      | Some e => Some (c1, "", Some e)
      | None =>
          let readByte := readBytes1 in
          if Ascii.eqb readByte DELIMITER
          then Some (c1, string_of_list_ascii buffer, None)
          else read_loop fuel' c1 readBytes1 (buffer ++ [readByte])%list
      end
  end.

(** Every turn of the loop that goes on has taken one event off the
    stream, so one turn more than the stream is long is enough. *)
Definition read_fuel (c : Conn) : nat := S (List.length (incoming c)).

(** [read(conn)]: the slice starts as [make([]byte, 1)], a zero byte. *)
Definition read (c : Conn) : Conn * string * option error :=
  match read_loop (read_fuel c) c zero [] with
  | Some r => r
  | None => (c, "", Some EOF)
  end.

(** [write(conn, content)] *)
Definition write (c : Conn) (content : string) : Conn * Z * option error :=
  let buffer := list_ascii_of_string content in
  let buffer := (buffer ++ [DELIMITER])%list in
  conn_Write c buffer.

(** ** Process state shared by the tasks *)

(** The package-level [wg] counter, what has been printed (oldest
    first) and whether a task has panicked. *)
Record World : Type := mkWorld {
  wg : Z;
  stdout : list string;
  panicked : bool
}.

Definition newline : string := String "010"%char EmptyString.

(** [printLog(role, sn, format, args...)], given the text that
    [fmt.Sprintf(format, args...)] produces.  No format string of the
    program ends in a newline, so one is always added. *)
Definition printLog (role : string) (sn : Z) (msg : string) (w : World) : World :=
  mkWorld (wg w)
          (List.app (stdout w)
                    [role ++ "[" ++ fmt_d sn ++ "]: " ++ msg ++ newline])
          (panicked w).

Definition printServerLog (msg : string) (w : World) : World :=
  printLog "Server" 0 msg w.

(** [%s] of an [error] value that may be nil. *)
Definition fmt_s_err (e : option error) : string :=
  match e with
  | Some e => Error e
  | None => "%!s(<nil>)"
  end.

(** [wg.Add(delta)]: a counter that goes negative panics. *)
Definition wg_Add (delta : Z) (w : World) : World :=
  let n := wg w + delta in
  mkWorld n (stdout w) (panicked w || (n <? 0)).

(** [wg.Done()] *)
Definition wg_Done (w : World) : World := wg_Add (-1) w.

(** ** Connection handler *)

Inductive Flow : Type := Break | Continue.

Section Handler.

(** [float64] with the three operations [handleConn] applies to it:
    the conversion [float64(param)], [math.Cbrt] and the [%f] verb. *)
Variable float64 : Type.
Variable float64_of_int32 : Z -> float64.
Variable math_Cbrt : float64 -> float64.
Variable fmt_f : float64 -> string.

(** [cbrt] *)
Definition cbrt (param : Z) : float64 := math_Cbrt (float64_of_int32 param).

(** The text of a successful response. *)
Definition respMsg_of (intReq : Z) : string :=
  "The cube root of " ++ fmt_d intReq ++ " is " ++ fmt_f (cbrt intReq) ++ ".".

(** One turn of the [for] loop of [handleConn]: [Break] where the
    source breaks, [Continue] where it reaches [continue] or the end
    of the body. *)
Definition handleConn_body (c : Conn) (w : World) : Flow * Conn * World :=
  let c := SetReadDeadline c (clock c + 10 * Second) in
  let '(c, strReq, err) := read c in
  match err with
  | Some e =>
      let w :=
        if is_EOF e
        then printServerLog "The connection is closed by another side." w
        else printServerLog ("Read Error: " ++ Error e) w in
      (Break, c, w)
  | None =>
      let w := printServerLog ("Received request: " ++ strReq ++ ".") w in
      let '(intReq, err) := strToInt32 strReq in
      match err with
      | Some e =>
          let '(c, n, err) := write c (Error e) in
          let w := printServerLog
                     ("Sent error message (written " ++ fmt_d n ++
                      " bytes): " ++ fmt_s_err err ++ ".") w in
          (Continue, c, w)
      | None =>
          let respMsg := respMsg_of intReq in
          let '(c, n, err) := write c respMsg in
          let w :=
            match err with
            | Some e => printServerLog ("Write Error: " ++ Error e) w
            | None => w
            end in
          let w := printServerLog
                     ("Sent response (written " ++ fmt_d n ++
                      " bytes): " ++ respMsg ++ ".") w in
          (Continue, c, w)
      end
  end.

(** The [for] loop; [None] when it has not ended within [fuel] turns. *)
Fixpoint handleConn_loop (fuel : nat) (c : Conn) (w : World)
  : option (Conn * World) :=
  match fuel with
  | O => None
  | S fuel' =>
      match handleConn_body c w with
      | (Break, c, w) => Some (c, w)
      | (Continue, c, w) => handleConn_loop fuel' c w
      end
  end.

(** The deferred function of [handleConn]. *)
Definition handleConn_deferred (c : Conn) (w : World) : Conn * World :=
  let c := Close c in
  let w := wg_Done w in
  (c, w).

(** [handleConn(conn)] run to its end with [fuel] turns of the loop. *)
Definition handleConn_fuel (fuel : nat) (c : Conn) (w : World)
  : option (Conn * World) :=
  match handleConn_loop fuel c w with
  | Some (c, w) => Some (handleConn_deferred c w)
  | None => None
  end.

(** A turn that goes on has read a whole message, so it has taken at
    least one event off the stream. *)
Definition handleConn (c : Conn) (w : World) : option (Conn * World) :=
  handleConn_fuel (S (List.length (incoming c))) c w.

End Handler.

(** ** Acceptor *)

(** What [listener.Accept()] returns: the connection, nil ([None]) when
    the call fails, and the error. *)
Definition AcceptResult : Type := (option Conn * option error)%type.

Inductive ServerEnd : Type :=
| ListenFailed   (* [net.Listen] failed; [serverGo] returned *)
| NilConnPanic   (* a method was called on a nil [net.Conn] *)
| AwaitingAccept (* blocked in [Accept] *).

(** The state of [serverGo]: the process state and the connections
    handed to [go handleConn(conn)], oldest first. *)
Record Server : Type := mkServer {
  world : World;
  spawned : list Conn
}.

(** One turn of the accept loop.  After an accept error is printed the
    body goes on to [conn.RemoteAddr()]; on a nil [conn] that call
    panics and the turn ends there ([inl]). *)
Definition serverGo_body (r : AcceptResult) (s : Server) : Server + Server :=
  let '(conn, err) := r in
  let w := world s in
  let w :=
    match err with
    | Some e => printServerLog ("Accept Error: " ++ Error e) w
    | None => w
    end in
  match conn with
  | None => inl (mkServer (mkWorld (wg w) (stdout w) true) (spawned s))
  | Some c =>
      let w := printServerLog
                 ("Established a connection with a client application. " ++
                  "(remote address: " ++ remoteAddr c ++ ")") w in
      inr (mkServer w (spawned s ++ [c])%list)
  end.

(** The accept loop over the results [Accept] gives in turn. *)
Fixpoint serverGo_loop (accepts : list AcceptResult) (s : Server)
  : ServerEnd * Server :=
  match accepts with
  | [] => (AwaitingAccept, s)
  | r :: accepts' =>
      match serverGo_body r s with
      | inl s' => (NilConnPanic, s')
      | inr s' => serverGo_loop accepts' s'
      end
  end.

(** [serverGo()]: [listen] is the error of [net.Listen], [addr] the
    listener's address. *)
Definition serverGo (listen : option error) (addr : string)
           (accepts : list AcceptResult) (w : World) : ServerEnd * Server :=
  match listen with
  | Some e =>
      (ListenFailed, mkServer (printServerLog ("Listen Error: " ++ Error e) w) [])
  | None =>
      let w := printServerLog
                 ("Got listener for the server. (local address: " ++ addr ++ ")") w in
      serverGo_loop accepts (mkServer w [])
  end.

(** ** Building connections *)

(** The bytes [bs], all on the stream by time [t]. *)
Definition deliver (t : Z) (bs : list ascii) : list ReadEvent :=
  map (Arrive t) bs.

(** A fresh connection with the given stream and write outcomes. *)
Definition newConn (evs : list ReadEvent) (ws : list WriteOutcome) : Conn :=
  mkConn evs ws [] [] None 0 0 "127.0.0.1:50000".

(** The bytes that went on the wire of a connection between the states
    [c] and [c']. *)
Definition sent_between (c c' : Conn) : list ascii :=
  skipn (List.length (wire c)) (wire c').

(** The process state before [main] runs. *)
Definition world0 : World := mkWorld 0 [] false.

(** ** The tasks of the program and the WaitGroup *)

(** Where [main] stands: before [wg.Add(2)], after it, after
    [go serverGo()], in [wg.Wait()] (after [go clientGo(1)]), returned. *)
Inductive MainPc : Type :=
| MainStart | MainAdded | MainServerStarted | MainWaiting | MainReturned.

Inductive Task : Type := NotStarted | Running | Finished.

(** The tasks as far as the WaitGroup is concerned: the process state,
    [main], the [serverGo] and [clientGo] tasks, and how many
    [handleConn] tasks have been started and how many have ended. *)
Record Prog : Type := mkProg {
  pworld : World;
  mainPc : MainPc;
  server : Task;
  client : Task;
  handlersStarted : nat;
  handlersEnded : nat
}.

(** The steps of the tasks that touch the WaitGroup or start a task. *)
Inductive Event : Type :=
| EvAdd          (* main: [wg.Add(2)] *)
| EvGoServer     (* main: [go serverGo()] *)
| EvGoClient     (* main: [go clientGo(1)] *)
| EvWaitReturns  (* main: [wg.Wait()] returns *)
| EvSpawnHandler (* serverGo: [go handleConn(conn)] *)
| EvServerReturn (* serverGo: return after a listen error *)
| EvHandlerEnd   (* handleConn: the deferred function runs *)
| EvClientEnd    (* clientGo: the deferred [wg.Done()] runs *).

Definition task_eqb (a b : Task) : bool :=
  match a, b with
  | NotStarted, NotStarted | Running, Running | Finished, Finished => true
  | _, _ => false
  end.

(** One step; [None] when the step cannot be taken in that state.  A
    panic or the return of [main] ends the process. *)
Definition step (e : Event) (p : Prog) : option Prog :=
  if panicked (pworld p) then None else
  match mainPc p with
  | MainReturned => None
  | pc =>
    match e with
    | EvAdd =>
        match pc with
        | MainStart =>
            Some (mkProg (wg_Add 2 (pworld p)) MainAdded (server p) (client p)
                         (handlersStarted p) (handlersEnded p))
        | _ => None
        end
    | EvGoServer =>
        match pc with
        | MainAdded =>
            Some (mkProg (pworld p) MainServerStarted Running (client p)
                         (handlersStarted p) (handlersEnded p))
        | _ => None
        end
    | EvGoClient =>
        match pc with
        | MainServerStarted =>
            Some (mkProg (pworld p) MainWaiting (server p) Running
                         (handlersStarted p) (handlersEnded p))
        | _ => None
        end
    | EvWaitReturns =>
        match pc with
        | MainWaiting =>
            if wg (pworld p) =? 0
            then Some (mkProg (pworld p) MainReturned (server p) (client p)
                              (handlersStarted p) (handlersEnded p))
            else None
        | _ => None
        end
    | EvSpawnHandler =>
        if task_eqb (server p) Running
        then Some (mkProg (pworld p) pc (server p) (client p)
                          (S (handlersStarted p)) (handlersEnded p))
        else None
    | EvServerReturn =>
        if task_eqb (server p) Running
        then Some (mkProg (pworld p) pc Finished (client p)
                          (handlersStarted p) (handlersEnded p))
        else None
    | EvHandlerEnd =>
        if (handlersEnded p <? handlersStarted p)%nat
        then Some (mkProg (wg_Done (pworld p)) pc (server p) (client p)
                          (handlersStarted p) (S (handlersEnded p)))
        else None
    | EvClientEnd =>
        if task_eqb (client p) Running
        then Some (mkProg (wg_Done (pworld p)) pc (server p) Finished
                          (handlersStarted p) (handlersEnded p))
        else None
    end
  end.

Fixpoint run (evs : list Event) (p : Prog) : option Prog :=
  match evs with
  | [] => Some p
  | e :: evs' =>
      match step e p with
      | Some p' => run evs' p'
      | None => None
      end
  end.

Definition prog0 : Prog := mkProg world0 MainStart NotStarted NotStarted 0 0.

(** A state the program can be in. *)
Definition reachable (p : Prog) : Prop := exists evs, run evs prog0 = Some p.

(** The [handleConn] tasks started and not yet ended. *)
Definition handlersLive (p : Prog) : Z :=
  Z.of_nat (handlersStarted p) - Z.of_nat (handlersEnded p).

(** What [main] has added to the counter. *)
Definition mainAdded (p : Prog) : Z :=
  match mainPc p with MainStart => 0 | _ => 2 end.

Definition clientDone (p : Prog) : Z :=
  match client p with Finished => 1 | _ => 0 end.

(** ** The value of a decimal literal *)

(** The number a run of decimal digits denotes, at no fixed width. *)
Fixpoint digits_value (s : string) (acc : Z) : option Z :=
  match s with
  | EmptyString => Some acc
  | String c rest =>
      match strconv.digit c with
      | None => None
      | Some d => digits_value rest (acc * 10 + d)
      end
  end.

Definition unsigned_literal (s : string) : option Z :=
  match s with
  | EmptyString => None
  | _ => digits_value s 0
  end.

(** The number a base-10 integer literal denotes: an optional sign and
    at least one digit. *)
Definition int_literal (s : string) : option Z :=
  match s with
  | EmptyString => None
  | String c0 rest =>
      if Ascii.eqb c0 "+" then unsigned_literal rest
      else if Ascii.eqb c0 "-" then option_map Z.opp (unsigned_literal rest)
      else unsigned_literal s
  end.

Definition MaxInt64 : Z := 9223372036854775807.
Definition MinInt64 : Z := -9223372036854775808.

Definition in_int64 (v : Z) : bool := (MinInt64 <=? v) && (v <=? MaxInt64).

(** The two failures of [strToInt32]. *)
Definition NotInteger (str : string) : error :=
  Errorf (dquote ++ str ++ dquote ++ " is not integer").
Definition OutOfRange (num : Z) : error :=
  Errorf (fmt_d num ++ " is not 32-bit integer").

(** The parts of a connection that reading does not touch. *)
Definition same_but_stream (c c' : Conn) : Prop :=
  wscript c' = wscript c /\ wcalls c' = wcalls c /\ wire c' = wire c /\
  readDeadline c' = readDeadline c /\ closed c' = closed c /\
  remoteAddr c' = remoteAddr c.

(** Bytes with their arrival times. *)
Definition arrivals (bs : list (Z * ascii)) : list ReadEvent :=
  map (fun p => Arrive (fst p) (snd p)) bs.

(** What holds of the counter in every state of the program. *)
Definition wg_invariant (p : Prog) : Prop :=
  wg (pworld p) = mainAdded p - Z.of_nat (handlersEnded p) - clientDone p /\
  match mainPc p with
  | MainStart | MainAdded | MainServerStarted => client p = NotStarted
  | _ => True
  end.

(** ** Running the handler on examples *)

(** A stand-in for [float64] with a single value, printed as ["#"]. *)
Definition exampleBody : Conn -> World -> Flow * Conn * World :=
  handleConn_body unit (fun _ => tt) (fun x => x) (fun _ => "#").

Definition exampleHandleConn : Conn -> World -> option (Conn * World) :=
  handleConn unit (fun _ => tt) (fun x => x) (fun _ => "#").

(** The request [s] as it comes in at time [t]: its bytes and the
    delimiter. *)
Definition request (t : Z) (s : string) : list ReadEvent :=
  deliver t (list_ascii_of_string s ++ [DELIMITER])%list.

(** Whether the line [msg] of the server is among what was printed. *)
Definition printed (msg : string) (w : World) : bool :=
  existsb (String.eqb ("Server[0]: " ++ msg ++ newline)) (stdout w).

(** ** The client *)

(** [time.Millisecond], in nanoseconds. *)
Definition Millisecond : Z := 1000000.

(** [printClientLog(sn, format, args...)] *)
Definition printClientLog (sn : Z) (msg : string) (w : World) : World :=
  printLog "Client" sn msg w.

(** [time.Sleep(d)], seen from the task that owns the connection: its
    clock moves on by [d]. *)
Definition Sleep (c : Conn) (d : Z) : Conn :=
  with_incoming c (incoming c) (clock c + d).

(** [conn.SetDeadline(t)].  The connection keeps a deadline for reads
    only; the writes that run into the deadline are among the failures
    of its write outcomes. *)
Definition SetDeadline (c : Conn) (t : Z) : Conn := SetReadDeadline c t.

(** [requestNumber := 5] *)
Definition requestNumber : nat := 5.

Section Client.

(** The value that the [i]-th call of [rand.Int31()] returns. *)
Variable Int31 : nat -> Z.

(** The loop that sends the requests: [k] turns to go, [i] the loop
    variable.  A write that fails is printed and the loop goes on to
    the next request. *)
Fixpoint clientGo_send (id : Z) (k i : nat) (c : Conn) (w : World)
  : Conn * World :=
  match k with
  | O => (c, w)
  | S k' =>
      let req := Int31 i in
      let '(c, n, err) := write c (fmt_d req) in
      match err with
      | Some e =>
          clientGo_send id k' (S i) c
            (printClientLog id ("Write Error: " ++ Error e) w)
      | None =>
          clientGo_send id k' (S i) c
            (printClientLog id
               ("Sent request (written " ++ fmt_d n ++ " bytes): " ++
                fmt_d req ++ ".") w)
      end
  end.

(** The loop that receives the responses: [k] turns to go.  The first
    read that fails ends it. *)
Fixpoint clientGo_recv (id : Z) (k : nat) (c : Conn) (w : World)
  : Conn * World :=
  match k with
  | O => (c, w)
  | S k' =>
      let '(c, strResp, err) := read c in
      match err with
      | Some e =>
          (c, if is_EOF e
              then printClientLog id "The connection is closed by another side." w
              else printClientLog id ("Read Error: " ++ Error e) w)
      | None =>
          clientGo_recv id k' c
            (printClientLog id ("Received response: " ++ strResp ++ ".") w)
      end
  end.

(** [clientGo(id)]: [dial] is what [net.DialTimeout] returns, the
    connection or the error; [localAddr] is what [conn.LocalAddr()]
    prints.  The result is the connection, when there is one, and the
    process state, both after the deferred calls have run:
    [conn.Close()] first, [wg.Done()] last. *)
Definition clientGo (id : Z) (dial : Conn + error) (localAddr : string)
           (w : World) : option Conn * World :=
  match dial with
  | inr e =>
      let w := printClientLog id ("Dial Error: " ++ Error e) w in
      (None, wg_Done w)
  | inl c =>
      let w := printClientLog id
                 ("Connected to server. (remote address: " ++ remoteAddr c ++
                  ", local address: " ++ localAddr ++ ")") w in
      let c := Sleep c (200 * Millisecond) in
      let c := SetDeadline c (clock c + 5 * Millisecond) in
      let '(c, w) := clientGo_send id requestNumber 0 c w in
      let '(c, w) := clientGo_recv id requestNumber c w in
      let c := Close c in
      (Some c, wg_Done w)
  end.

End Client.

(** ** Notions used to state the further properties *)

(** The number a decimal numeral denotes, read from the left with the
    accumulator [acc]. *)
Fixpoint uint_value (d : Decimal.uint) (acc : Z) : Z :=
  match d with
  | Decimal.Nil => acc
  | Decimal.D0 d => uint_value d (acc * 10 + 0)
  | Decimal.D1 d => uint_value d (acc * 10 + 1)
  | Decimal.D2 d => uint_value d (acc * 10 + 2)
  | Decimal.D3 d => uint_value d (acc * 10 + 3)
  | Decimal.D4 d => uint_value d (acc * 10 + 4)
  | Decimal.D5 d => uint_value d (acc * 10 + 5)
  | Decimal.D6 d => uint_value d (acc * 10 + 6)
  | Decimal.D7 d => uint_value d (acc * 10 + 7)
  | Decimal.D8 d => uint_value d (acc * 10 + 8)
  | Decimal.D9 d => uint_value d (acc * 10 + 9)
  end.

(** The bytes of a message on the wire: the text and the delimiter. *)
Definition framed (s : string) : list ascii :=
  (list_ascii_of_string s ++ [DELIMITER])%list.

(** The messages [msgs], one after the other, all on the stream by
    time [t]. *)
Definition requests (t : Z) (msgs : list string) : list ReadEvent :=
  flat_map (request t) msgs.

(** Whether an accept result carries a connection. *)
Definition has_conn (r : AcceptResult) : bool :=
  match fst r with Some _ => true | None => false end.

(** The accept results up to the first one without a connection. *)
Fixpoint leading_conns (accepts : list AcceptResult) : list Conn :=
  match accepts with
  | (Some c, _) :: rest => c :: leading_conns rest
  | _ => []
  end.

Section Response.

Variable float64 : Type.
Variable float64_of_int32 : Z -> float64.
Variable math_Cbrt : float64 -> float64.
Variable fmt_f : float64 -> string.

(** The text that [handleConn] passes to [write] for the request
    [strReq]: the description of the failure when [strToInt32] refuses
    it, the response text of the integer otherwise. *)
Definition response_of (strReq : string) : string :=
  match strToInt32 strReq with
  | (_, Some e) => Error e
  | (intReq, None) =>
      respMsg_of float64 float64_of_int32 math_Cbrt fmt_f intReq
  end.

End Response.

(** What else holds in every state of the program: handlers end after
    they start and start only once the server runs; the server runs
    only once [main] has added to the counter; a panic is a counter
    below zero, and the counter is never below minus one; [main] has
    returned only on a counter of zero. *)
Definition prog_invariant (p : Prog) : Prop :=
  (handlersEnded p <= handlersStarted p)%nat /\
  (server p = NotStarted -> handlersStarted p = 0%nat) /\
  (match mainPc p with
   | MainStart | MainAdded => server p = NotStarted
   | _ => True
   end) /\
  panicked (pworld p) = (wg (pworld p) <? 0) /\
  -1 <= wg (pworld p) /\
  (mainPc p = MainReturned -> wg (pworld p) = 0).

Section Turns.

Variable float64 : Type.
Variable float64_of_int32 : Z -> float64.
Variable math_Cbrt : float64 -> float64.
Variable fmt_f : float64 -> string.

(** The states in which the later turns of the loop start: [(c', w')]
    is reached from [(c, w)] by turns that all go on. *)
Inductive loop_reaches : Conn -> World -> Conn -> World -> Prop :=
| reaches_here (c : Conn) (w : World) : loop_reaches c w c w
| reaches_later (c : Conn) (w : World) (c1 : Conn) (w1 : World)
                (c' : Conn) (w' : World) :
    handleConn_body float64 float64_of_int32 math_Cbrt fmt_f c w =
      (Continue, c1, w1) ->
    loop_reaches c1 w1 c' w' ->
    loop_reaches c w c' w'.

End Turns.

(** * Properties *)

(** ** The parser *)

Lemma digit_range c d : strconv.digit c = Some d -> 0 <= d <= 9.
Proof.
  unfold strconv.digit.
  destruct (48 <=? Z.of_nat (nat_of_ascii c)) eqn:E1;
    destruct (Z.of_nat (nat_of_ascii c) <=? 57) eqn:E2;
    cbn; intros H; inversion H; subst; lia.
Qed.

Lemma digits_value_ge s : forall acc v,
  0 <= acc -> digits_value s acc = Some v -> acc <= v.
Proof.
  induction s as [|c s IH]; cbn; intros acc v Hacc H.
  - inversion H; lia.
  - destruct (strconv.digit c) as [d|] eqn:Ed; [|discriminate].
    apply digit_range in Ed.
    apply IH in H; lia.
Qed.

(** The digit loop at 64 bits against the unbounded value. *)
Lemma uint_loop_64 s : forall n v,
  0 <= n <= strconv.maxUint64 -> digits_value s n = Some v ->
  strconv.uint_loop strconv.maxUint64 s n =
    if v <=? strconv.maxUint64 then inl v else inr strconv.ErrRange.
Proof.
  unfold strconv.maxUint64.
  induction s as [|c s IH]; cbn [digits_value strconv.uint_loop]; intros n v Hn H.
  - inversion H; subst.
    destruct (v <=? 2 ^ 64 - 1) eqn:E; [reflexivity|lia].
  - destruct (strconv.digit c) as [d|] eqn:Ed; [|discriminate].
    pose proof (digit_range _ _ Ed) as Hd.
    assert (Hv : n * 10 + d <= v) by (apply (digits_value_ge s); [lia|exact H]).
    change (strconv.maxUint64 / 10 + 1) with 1844674407370955162.
    unfold strconv.maxUint64.
    change (2 ^ 64 - 1) with 18446744073709551615 in *.
    destruct (1844674407370955162 <=? n) eqn:E1.
    + destruct (v <=? 18446744073709551615) eqn:E2; [lia|reflexivity].
    + rewrite orb_diag.
      destruct (18446744073709551615 <? n * 10 + d) eqn:E3.
      * destruct (v <=? 18446744073709551615) eqn:E2; [lia|reflexivity].
      * apply IH; [lia|exact H].
Qed.

Lemma ParseUint10_64 s v :
  unsigned_literal s = Some v ->
  strconv.ParseUint10 s 0 =
    if v <=? strconv.maxUint64 then (v, None)
    else (strconv.maxUint64, Some strconv.ErrRange).
Proof.
  destruct s as [|c s]; [discriminate|].
  unfold unsigned_literal, strconv.ParseUint10. intros H.
  change (if 0 =? 0 then IntSize else 0) with 64.
  change (2 ^ 64 - 1) with strconv.maxUint64.
  rewrite (uint_loop_64 _ 0 v); [|unfold strconv.maxUint64; lia|exact H].
  destruct (v <=? strconv.maxUint64); reflexivity.
Qed.

Lemma unsigned_literal_nonneg s v : unsigned_literal s = Some v -> 0 <= v.
Proof.
  destruct s; [discriminate|]. unfold unsigned_literal.
  apply digits_value_ge. lia.
Qed.

(** [strconv.ParseInt(s, 10, 0)] on a literal: its value when that fits
    64 bits, a range error otherwise. *)
Lemma ParseInt10_literal s v :
  int_literal s = Some v ->
  if in_int64 v
  then strconv.ParseInt10 s 0 = (v, None)
  else snd (strconv.ParseInt10 s 0) = Some strconv.ErrRange.
Proof.
  destruct s as [|c0 rest]; [discriminate|].
  unfold int_literal, strconv.ParseInt10, in_int64, MinInt64, MaxInt64.
  change (if 0 =? 0 then IntSize else 0) with 64.
  change (2 ^ (64 - 1)) with 9223372036854775808.
  destruct (Ascii.eqb c0 "+") eqn:Eplus; [|destruct (Ascii.eqb c0 "-") eqn:Eminus].
  - intros H. pose proof (unsigned_literal_nonneg _ _ H) as Hv.
    rewrite (ParseUint10_64 _ _ H). unfold strconv.maxUint64.
    change (2 ^ 64 - 1) with 18446744073709551615.
    destruct (v <=? 18446744073709551615) eqn:E1; cbn [negb andb];
      destruct (9223372036854775808 <=? v) eqn:E2;
      destruct (-9223372036854775808 <=? v) eqn:E3;
      destruct (v <=? 9223372036854775807) eqn:E4;
      cbn; try reflexivity; try lia.
  - destruct (unsigned_literal rest) as [u|] eqn:Eu; [|discriminate].
    cbn [option_map]. intros H; inversion H; subst v; clear H.
    pose proof (unsigned_literal_nonneg _ _ Eu) as Hu.
    rewrite (ParseUint10_64 _ _ Eu). unfold strconv.maxUint64.
    change (2 ^ 64 - 1) with 18446744073709551615.
    destruct (u <=? 18446744073709551615) eqn:E1; cbn [negb andb];
      destruct (9223372036854775808 <? u) eqn:E2;
      destruct (-9223372036854775808 <=? - u) eqn:E3;
      destruct (- u <=? 9223372036854775807) eqn:E4;
      cbn; try reflexivity; try lia.
  - intros H. pose proof (unsigned_literal_nonneg _ _ H) as Hv.
    rewrite (ParseUint10_64 _ _ H). unfold strconv.maxUint64.
    change (2 ^ 64 - 1) with 18446744073709551615.
    destruct (v <=? 18446744073709551615) eqn:E1; cbn [negb andb];
      destruct (9223372036854775808 <=? v) eqn:E2;
      destruct (-9223372036854775808 <=? v) eqn:E3;
      destruct (v <=? 9223372036854775807) eqn:E4;
      cbn; try reflexivity; try lia.
Qed.

(** A literal whose value is a signed 32-bit integer parses to that
    value. *)
Lemma strToInt32_in_range (s : string) (v : Z) :
  int_literal s = Some v ->
  MinInt32 <= v <= MaxInt32 ->
  strToInt32 s = (v, None).
Proof.
  intros Hlit Hin.
  pose proof (ParseInt10_literal s v Hlit) as HP.
  assert (E64 : in_int64 v = true).
  { unfold in_int64, MinInt64, MaxInt64, MinInt32, MaxInt32 in *.
    apply andb_true_iff. split; apply Z.leb_le; lia. }
  rewrite E64 in HP. unfold strToInt32. rewrite HP.
  assert (E : (MaxInt32 <? v) || (v <? MinInt32) = false).
  { apply orb_false_iff. split; apply Z.ltb_ge; lia. }
  rewrite E. reflexivity.
Qed.

(** C3 (as the code has it): for every decimal literal whose value is
    outside the signed 32-bit range, [strToInt32] fails; the failure is
    the "is not 32-bit integer" one, carrying the value, when the value
    fits the 64-bit [int] that the parse is made at, and the
    "is not integer" one, carrying the text, when it does not. *)
Theorem strToInt32_outside_int32 (s : string) (v : Z) :
  int_literal s = Some v ->
  MaxInt32 < v \/ v < MinInt32 ->
  strToInt32 s =
    (0, Some (if in_int64 v then OutOfRange v else NotInteger s)).
Proof.
  intros Hlit Hout.
  pose proof (ParseInt10_literal s v Hlit) as HP.
  unfold strToInt32.
  destruct (in_int64 v) eqn:E64.
  - rewrite HP.
    assert (E : (MaxInt32 <? v) || (v <? MinInt32) = true).
    { apply orb_true_iff. destruct Hout; [left|right]; apply Z.ltb_lt; assumption. }
    rewrite E. reflexivity.
  - destruct (strconv.ParseInt10 s 0) as [num err]. cbn in HP. subst err.
    reflexivity.
Qed.

Lemma strToInt32_outside_int32_witness :
  strToInt32 "99999999999" = (0, Some (OutOfRange 99999999999)).
Proof.
  apply (strToInt32_outside_int32 "99999999999" 99999999999).
  - reflexivity.
  - left. reflexivity.
Defined.

(** C3 fails as stated: the value of ["9223372036854775808"] is over
    the 32-bit range, yet the failure is the "is not integer" one and
    not the "is not 32-bit integer" one. *)
Lemma strToInt32_too_wide_for_int64 :
  int_literal "9223372036854775808" = Some 9223372036854775808 /\
  MaxInt32 < 9223372036854775808 /\
  strToInt32 "9223372036854775808" =
    (0, Some (NotInteger "9223372036854775808")) /\
  strToInt32 "9223372036854775808" <>
    (0, Some (OutOfRange 9223372036854775808)).
Proof.
  repeat split; try reflexivity.
  vm_compute. intros H. discriminate H.
Qed.

(** ** The framing codec *)

Lemma with_incoming_twice c evs1 n1 evs2 n2 :
  with_incoming (with_incoming c evs1 n1) evs2 n2 = with_incoming c evs2 n2.
Proof. reflexivity. Qed.

Lemma before_deadline_with_incoming c evs n t :
  before_deadline (with_incoming c evs n) t = before_deadline c t.
Proof. reflexivity. Qed.

(** A call of [conn.Read] that returns no error has taken one event off
    the stream. *)
Lemma conn_Read_progress c rb c' rb' n :
  conn_Read c rb = (c', rb', n, None) ->
  S (List.length (incoming c')) = List.length (incoming c).
Proof.
  unfold conn_Read.
  destruct (incoming c) as [|[t b| |e] rest] eqn:E; try discriminate.
  - destruct (before_deadline c t); [|discriminate].
    intros H; inversion H; subst; reflexivity.
  - intros H; inversion H; subst; reflexivity.
Qed.

(** The loop of [read] ends within one turn more than the stream is
    long: [read] always returns. *)
Lemma read_loop_total fuel : forall c rb buf,
  (List.length (incoming c) < fuel)%nat ->
  read_loop fuel c rb buf <> None.
Proof.
  induction fuel as [|fuel IH]; intros c rb buf Hlen; [inversion Hlen|].
  cbn [read_loop].
  destruct (conn_Read c rb) as [[[c1 rb1] n] [e|]] eqn:ER; [discriminate|].
  destruct (Ascii.eqb rb1 DELIMITER); [discriminate|].
  apply IH. apply conn_Read_progress in ER. lia.
Qed.

Lemma read_is_read_loop c :
  read_loop (read_fuel c) c zero [] = Some (read c).
Proof.
  unfold read.
  destruct (read_loop (read_fuel c) c zero []) as [r|] eqn:E; [reflexivity|].
  exfalso. revert E. apply read_loop_total. unfold read_fuel. lia.
Qed.

(** Reading a delimiter-free run of bytes followed by the delimiter,
    all on the stream before the deadline: the bytes are gathered, the
    delimiter is taken and dropped, what follows stays on the stream. *)
Lemma read_loop_message t rest body : forall fuel c rb buf,
  ~ In DELIMITER body ->
  incoming c = (deliver t (body ++ [DELIMITER]) ++ rest)%list ->
  before_deadline c t = true ->
  (List.length body < fuel)%nat ->
  read_loop fuel c rb buf =
    Some (with_incoming c rest (Z.max (clock c) t),
          string_of_list_ascii (buf ++ body), None).
Proof.
  induction body as [|b body IH]; intros fuel c rb buf Hno Hin Hdl Hfuel.
  - destruct fuel as [|fuel]; [inversion Hfuel|].
    cbn [read_loop]. unfold conn_Read. rewrite Hin. cbn.
    rewrite Hdl. cbn. rewrite app_nil_r. reflexivity.
  - destruct fuel as [|fuel]; [inversion Hfuel|].
    cbn [read_loop]. unfold conn_Read. rewrite Hin. cbn.
    rewrite Hdl.
    assert (Hb : Ascii.eqb b DELIMITER = false).
    { apply Ascii.eqb_neq. intros ->. apply Hno. left. reflexivity. }
    rewrite Hb.
    erewrite IH.
    + rewrite with_incoming_twice. cbn [clock with_incoming].
      rewrite <- Z.max_assoc, Z.max_id, <- app_assoc. reflexivity.
    + intros HIn. apply Hno. right. exact HIn.
    + reflexivity.
    + rewrite before_deadline_with_incoming. exact Hdl.
    + cbn in Hfuel. lia.
Qed.

Lemma read_message t rest body c :
  ~ In DELIMITER body ->
  incoming c = (deliver t (body ++ [DELIMITER]) ++ rest)%list ->
  before_deadline c t = true ->
  read c = (with_incoming c rest (Z.max (clock c) t),
            string_of_list_ascii body, None).
Proof.
  intros Hno Hin Hdl.
  pose proof (read_is_read_loop c) as HR.
  rewrite (read_loop_message t rest body (read_fuel c) c zero [] Hno Hin Hdl) in HR.
  - inversion HR. reflexivity.
  - unfold read_fuel. rewrite Hin. unfold deliver.
    rewrite length_app, length_map, length_app. lia.
Qed.

(** C6: [write] makes one call of [conn.Write], on exactly the bytes of
    [content] followed by one delimiter, and returns what that call
    returns; when it succeeds the count is [len(content) + 1] and those
    bytes are what went on the wire. *)
Theorem write_single_framed_write (c : Conn) (content : string) :
  let framed := (list_ascii_of_string content ++ [DELIMITER])%list in
  write c content = conn_Write c framed /\
  wcalls (fst (fst (write c content))) = framed :: wcalls c /\
  match snd (write c content) with
  | None =>
      snd (fst (write c content)) = Z.of_nat (String.length content) + 1 /\
      wire (fst (fst (write c content))) = (wire c ++ framed)%list
  | Some _ => True
  end.
Proof.
  assert (Hlen : forall s, List.length (list_ascii_of_string s) = String.length s).
  { induction s as [|a s IH]; cbn; [reflexivity|]. rewrite IH. reflexivity. }
  cbv zeta. split; [reflexivity|].
  unfold write, conn_Write.
  destruct (wscript c) as [|[|n e] ws]; cbn [fst snd wcalls wire];
    repeat split; try reflexivity;
    rewrite length_app, Hlen; cbn; lia.
Qed.

(** C5: a payload without the delimiter, written with [write] on one
    end and read with [read] on the other end of the same stream, comes
    back exactly; [read] takes the payload bytes and the one delimiter
    off the stream and leaves what follows on it. *)
Theorem write_then_read_roundtrip
        (payload : string) (cw cr : Conn) (t : Z) (rest : list ReadEvent) :
  ~ In DELIMITER (list_ascii_of_string payload) ->
  snd (write cw payload) = None ->
  incoming cr =
    (deliver t (sent_between cw (fst (fst (write cw payload)))) ++ rest)%list ->
  before_deadline cr t = true ->
  read cr = (with_incoming cr rest (Z.max (clock cr) t), payload, None) /\
  incoming (fst (fst (read cr))) = rest.
Proof.
  intros Hno Hok Hin Hdl.
  assert (Hsent : sent_between cw (fst (fst (write cw payload))) =
                  (list_ascii_of_string payload ++ [DELIMITER])%list).
  { pose proof (write_single_framed_write cw payload) as [_ [_ Hw]].
    rewrite Hok in Hw. destruct Hw as [_ Hw].
    unfold sent_between. rewrite Hw.
    rewrite skipn_app, skipn_all, Nat.sub_diag. reflexivity. }
  rewrite Hsent in Hin.
  assert (HR : read cr = (with_incoming cr rest (Z.max (clock cr) t), payload, None)).
  { rewrite (read_message t rest (list_ascii_of_string payload) cr Hno Hin Hdl).
    rewrite string_of_list_ascii_of_string. reflexivity. }
  split; [exact HR|]. rewrite HR. reflexivity.
Qed.

Lemma write_then_read_roundtrip_witness :
  let cr :=
    newConn (deliver 0 (sent_between (newConn [] [])
                          (fst (fst (write (newConn [] []) "27")))) ++
             deliver 0 (list_ascii_of_string "64"))%list [] in
  read cr = (with_incoming cr (deliver 0 (list_ascii_of_string "64"))
               (Z.max (clock cr) 0), "27", None) /\
  incoming (fst (fst (read cr))) = deliver 0 (list_ascii_of_string "64").
Proof.
  apply (write_then_read_roundtrip "27" (newConn [] []) _ 0
           (deliver 0 (list_ascii_of_string "64"))).
  - cbn. intros [H|[H|[]]]; discriminate H.
  - reflexivity.
  - reflexivity.
  - reflexivity.
Defined.

(** What [read] does with a call of [conn.Read] that returns zero bytes
    and no error: the count is not looked at, so the loop goes on with
    the byte the slice already holds. *)
Lemma read_loop_zero_read fuel c rb buf rest :
  incoming c = ZeroRead :: rest ->
  read_loop (S fuel) c rb buf =
    if Ascii.eqb rb DELIMITER
    then Some (with_incoming c rest (clock c), string_of_list_ascii buf, None)
    else read_loop fuel (with_incoming c rest (clock c)) rb (buf ++ [rb])%list.
Proof.
  intros Hin. cbn [read_loop]. unfold conn_Read. rewrite Hin. reflexivity.
Qed.

(** C7 (as the code has it): a call of [conn.Read] that returns zero
    bytes and no error is not told apart from one that delivers a byte:
    [read] goes on exactly as if the byte already held in the one-byte
    slice (the byte read before, or the zero byte at the start of the
    call) had just arrived. *)
Theorem read_zero_read_as_stale_byte
        (fuel : nat) (c : Conn) (rb : ascii) (buf : list ascii)
        (rest : list ReadEvent) :
  incoming c = ZeroRead :: rest ->
  before_deadline c (clock c) = true ->
  read_loop fuel c rb buf =
    read_loop fuel (with_incoming c (Arrive (clock c) rb :: rest) (clock c)) rb buf.
Proof.
  intros Hin Hdl.
  destruct fuel as [|fuel]; [reflexivity|].
  rewrite (read_loop_zero_read fuel c rb buf rest Hin).
  cbn [read_loop]. unfold conn_Read. cbn [incoming with_incoming].
  rewrite before_deadline_with_incoming, Hdl.
  rewrite with_incoming_twice. cbn [clock with_incoming].
  rewrite Z.max_id. reflexivity.
Qed.

Lemma read_zero_read_as_stale_byte_witness :
  read_loop 4 (newConn (ZeroRead :: deliver 0 [DELIMITER]) []) "7" [] =
  read_loop 4 (with_incoming (newConn (ZeroRead :: deliver 0 [DELIMITER]) [])
                 (Arrive 0 "7" :: deliver 0 [DELIMITER]) 0) "7" [].
Proof.
  apply (read_zero_read_as_stale_byte 4
           (newConn (ZeroRead :: deliver 0 [DELIMITER]) []) "7" []
           (deliver 0 [DELIMITER])).
  - reflexivity.
  - reflexivity.
Defined.

(** C7 fails as stated: the stream brings the byte ['1'], then a read
    of zero bytes with no error, then the delimiter; [read] reports no
    error and returns ["11"], the stale byte counted as received. *)
Lemma read_zero_read_not_detected :
  read (newConn [Arrive 0 "1"; ZeroRead; Arrive 0 DELIMITER] []) =
    (with_incoming (newConn [Arrive 0 "1"; ZeroRead; Arrive 0 DELIMITER] []) [] 0,
     "11", None).
Proof. reflexivity. Qed.

(** ** What the codec leaves alone *)

Lemma same_but_stream_refl c : same_but_stream c c.
Proof. repeat split. Qed.

Lemma same_but_stream_trans c1 c2 c3 :
  same_but_stream c1 c2 -> same_but_stream c2 c3 -> same_but_stream c1 c3.
Proof.
  unfold same_but_stream. intuition congruence.
Qed.

Lemma conn_Read_frame c rb c' rb' n err :
  conn_Read c rb = (c', rb', n, err) -> same_but_stream c c'.
Proof.
  unfold conn_Read.
  destruct (incoming c) as [|[t b| |e] rest].
  - intros H; inversion H; subst. apply same_but_stream_refl.
  - destruct (before_deadline c t); intros H; inversion H; subst;
      repeat split.
  - intros H; inversion H; subst; repeat split.
  - intros H; inversion H; subst; repeat split.
Qed.

Lemma read_loop_frame fuel : forall c rb buf c' s err,
  read_loop fuel c rb buf = Some (c', s, err) -> same_but_stream c c'.
Proof.
  induction fuel as [|fuel IH]; intros c rb buf c' s err; [discriminate|].
  cbn [read_loop].
  destruct (conn_Read c rb) as [[[c1 rb1] n] [e|]] eqn:ER.
  - intros H; inversion H; subst. eapply conn_Read_frame; eassumption.
  - apply conn_Read_frame in ER.
    destruct (Ascii.eqb rb1 DELIMITER).
    + intros H; inversion H; subst. exact ER.
    + intros H. apply IH in H. eapply same_but_stream_trans; eassumption.
Qed.

Lemma read_frame c c' s err :
  read c = (c', s, err) -> same_but_stream c c'.
Proof.
  intros H. pose proof (read_is_read_loop c) as HR. rewrite H in HR.
  eapply read_loop_frame; eassumption.
Qed.

(** A successful [read] has taken at least one event off the stream. *)
Lemma read_loop_progress fuel : forall c rb buf c' s,
  read_loop fuel c rb buf = Some (c', s, None) ->
  (List.length (incoming c') < List.length (incoming c))%nat.
Proof.
  induction fuel as [|fuel IH]; intros c rb buf c' s; [discriminate|].
  cbn [read_loop].
  destruct (conn_Read c rb) as [[[c1 rb1] n] [e|]] eqn:ER; [discriminate|].
  apply conn_Read_progress in ER.
  destruct (Ascii.eqb rb1 DELIMITER).
  - intros H; inversion H; subst. lia.
  - intros H. apply IH in H. lia.
Qed.

Lemma read_progress c c' s :
  read c = (c', s, None) ->
  (List.length (incoming c') < List.length (incoming c))%nat.
Proof.
  intros H. pose proof (read_is_read_loop c) as HR. rewrite H in HR.
  eapply read_loop_progress; eassumption.
Qed.

(** [write] makes one [Write] call and leaves the stream, the deadline
    and the [Close] count alone. *)
Lemma write_frame c content c' n err :
  write c content = (c', n, err) ->
  wcalls c' = (list_ascii_of_string content ++ [DELIMITER])%list :: wcalls c /\
  incoming c' = incoming c /\ readDeadline c' = readDeadline c /\
  clock c' = clock c /\ closed c' = closed c.
Proof.
  unfold write, conn_Write.
  destruct (wscript c) as [|[|k e] ws]; intros H; inversion H; subst;
    repeat split.
Qed.


(** ** The connection handler *)

Section HandlerProperties.

Variable float64 : Type.
Variable float64_of_int32 : Z -> float64.
Variable math_Cbrt : float64 -> float64.
Variable fmt_f : float64 -> string.

Local Abbreviation body := (handleConn_body float64 float64_of_int32 math_Cbrt fmt_f).
Local Abbreviation loop := (handleConn_loop float64 float64_of_int32 math_Cbrt fmt_f).
Local Abbreviation respMsg := (respMsg_of float64 float64_of_int32 math_Cbrt fmt_f).

(** A turn of the loop that goes on has shortened the stream. *)
Lemma handleConn_body_progress c w c' w' :
  body c w = (Continue, c', w') ->
  (List.length (incoming c') < List.length (incoming c))%nat.
Proof.
  unfold handleConn_body.
  destruct (read (SetReadDeadline c (clock c + 10 * Second)))
    as [[c1 strReq] [e|]] eqn:ER; [discriminate|].
  apply read_progress in ER. cbn [incoming SetReadDeadline] in ER.
  destruct (strToInt32 strReq) as [intReq [e|]].
  - destruct (write c1 (Error e)) as [[c2 n] err] eqn:EW.
    apply write_frame in EW. destruct EW as (_ & Hin & _).
    intros H; inversion H; subst. rewrite Hin. exact ER.
  - destruct (write c1 (respMsg intReq)) as [[c2 n] err] eqn:EW.
    apply write_frame in EW. destruct EW as (_ & Hin & _).
    intros H; inversion H; subst. rewrite Hin. exact ER.
Qed.

(** The loop ends within one turn more than the stream is long. *)
Lemma handleConn_loop_total fuel : forall c w,
  (List.length (incoming c) < fuel)%nat -> loop fuel c w <> None.
Proof.
  induction fuel as [|fuel IH]; intros c w Hlen; [inversion Hlen|].
  cbn [handleConn_loop].
  destruct (body c w) as [[[|] c'] w'] eqn:EB; [discriminate|].
  apply IH. apply handleConn_body_progress in EB. lia.
Qed.

(** [handleConn] returns on every connection. *)
Lemma handleConn_total c w :
  handleConn float64 float64_of_int32 math_Cbrt fmt_f c w <> None.
Proof.
  unfold handleConn, handleConn_fuel.
  destruct (loop (S (List.length (incoming c))) c w) as [[c' w']|] eqn:E.
  - discriminate.
  - exfalso. revert E. apply handleConn_loop_total. lia.
Qed.

(** A request that is a signed 32-bit integer is answered by one
    [Write] call on the response text of that integer followed by the
    delimiter, and the loop goes on. *)
Lemma valid_request_answered
      (c c1 : Conn) (w : World) (strReq : string) (intReq : Z) :
  read (SetReadDeadline c (clock c + 10 * Second)) = (c1, strReq, None) ->
  strToInt32 strReq = (intReq, None) ->
  exists c2 w2,
    body c w = (Continue, c2, w2) /\
    wcalls c2 =
      (list_ascii_of_string (respMsg intReq) ++ [DELIMITER])%list :: wcalls c.
Proof.
  intros ER EP.
  pose proof (read_frame _ _ _ _ ER) as (_ & Hwc & _).
  cbn [wcalls SetReadDeadline] in Hwc.
  destruct (write c1 (respMsg intReq)) as [[c2 n] err] eqn:EW.
  pose proof (write_frame _ _ _ _ _ EW) as (Hw & _).
  eexists; eexists. split.
  - unfold handleConn_body. rewrite ER, EP, EW. reflexivity.
  - rewrite Hw, Hwc. reflexivity.
Qed.

End HandlerProperties.

(** ** The idle timeout *)


Section IdleTimeout.

Variable float64 : Type.
Variable float64_of_int32 : Z -> float64.
Variable math_Cbrt : float64 -> float64.
Variable fmt_f : float64 -> string.



End IdleTimeout.

(** ** The acceptor *)

(** C2 (what the code does when [Accept] fails): the error is printed,
    and the turn goes on to call [RemoteAddr] on the nil connection,
    which panics; the loop does not reach its next [Accept], whatever
    results [more] were to come, and no handler is started. *)
Theorem accept_error_nil_conn_panic
        (e : error) (s : Server) (more : list AcceptResult) :
  let w := printServerLog ("Accept Error: " ++ Error e) (world s) in
  serverGo_body (None, Some e) s =
    inl (mkServer (mkWorld (wg w) (stdout w) true) (spawned s)) /\
  serverGo_loop ((None, Some e) :: more) s =
    (NilConnPanic, mkServer (mkWorld (wg w) (stdout w) true) (spawned s)).
Proof. split; reflexivity. Qed.

(** An accept that succeeds is followed by the next one. *)
Lemma accept_ok_continues c s more :
  serverGo_loop ((Some c, None) :: more) s =
    serverGo_loop more
      (mkServer
         (printServerLog
            ("Established a connection with a client application. " ++
             "(remote address: " ++ remoteAddr c ++ ")") (world s))
         (spawned s ++ [c])%list).
Proof. reflexivity. Qed.

(** ** The WaitGroup *)

Lemma wg_invariant_step e p p' :
  wg_invariant p -> step e p = Some p' -> wg_invariant p'.
Proof.
  unfold wg_invariant, step, mainAdded, clientDone, wg_Done, wg_Add.
  intros [Hwg Hcl].
  destruct (panicked (pworld p)); [discriminate|].
  destruct e; destruct (mainPc p) eqn:Epc; try discriminate;
    repeat match goal with
    | |- context [if ?b then _ else _] => destruct b eqn:?; try discriminate
    end;
    intros H; inversion H; subst; clear H;
    cbn [wg pworld mainPc client server handlersStarted handlersEnded] in *;
    try rewrite Nat2Z.inj_succ;
    try rewrite Hcl in *;
    (split; [|try exact I; try reflexivity; try assumption]);
    try lia;
    destruct (client p); cbn [task_eqb] in *; try discriminate; lia.
Qed.

Lemma wg_invariant_run evs : forall p p',
  wg_invariant p -> run evs p = Some p' -> wg_invariant p'.
Proof.
  induction evs as [|e evs IH]; cbn; intros p p' Hinv H.
  - inversion H; subst; exact Hinv.
  - destruct (step e p) as [p1|] eqn:Es; [|discriminate].
    eapply IH; [|exact H]. eapply wg_invariant_step; eassumption.
Qed.

(** C4 (as the code has it): the counter is raised by two, once, by
    [main]; starting a handler leaves it as it is; the end of a handler
    lowers it by one, as does the end of [clientGo].  In every state
    the program can reach the counter is what [main] has added less the
    handlers ended and less one for a client that has ended. *)
Theorem wg_counter_in_reachable_states (p : Prog) :
  reachable p ->
  wg (pworld p) = mainAdded p - Z.of_nat (handlersEnded p) - clientDone p /\
  (forall p', step EvSpawnHandler p = Some p' ->
              wg (pworld p') = wg (pworld p)) /\
  (forall p', step EvHandlerEnd p = Some p' ->
              wg (pworld p') = wg (pworld p) - 1 /\
              pworld p' = snd (handleConn_deferred (newConn [] []) (pworld p))).
Proof.
  intros [evs Hrun].
  assert (Hinv : wg_invariant p).
  { eapply wg_invariant_run; [|exact Hrun]. split; reflexivity. }
  split; [exact (proj1 Hinv)|]. split.
  - intros p'. unfold step.
    destruct (panicked (pworld p)); [discriminate|].
    destruct (mainPc p); try discriminate;
      destruct (task_eqb (server p) Running); try discriminate;
      intros H; inversion H; reflexivity.
  - intros p'. unfold step.
    destruct (panicked (pworld p)); [discriminate|].
    destruct (mainPc p); try discriminate;
      destruct (handlersEnded p <? handlersStarted p)%nat; try discriminate;
      intros H; inversion H; cbn; (split; [lia|reflexivity]).
Qed.

Lemma wg_counter_in_reachable_states_witness :
  let p := mkProg (mkWorld 2 [] false) MainWaiting Running Running 1 0 in
  wg (pworld p) = mainAdded p - Z.of_nat (handlersEnded p) - clientDone p /\
  (forall p', step EvSpawnHandler p = Some p' ->
              wg (pworld p') = wg (pworld p)) /\
  (forall p', step EvHandlerEnd p = Some p' ->
              wg (pworld p') = wg (pworld p) - 1 /\
              pworld p' = snd (handleConn_deferred (newConn [] []) (pworld p))).
Proof.
  apply (wg_counter_in_reachable_states
           (mkProg (mkWorld 2 [] false) MainWaiting Running Running 1 0)).
  exists [EvAdd; EvGoServer; EvGoClient; EvSpawnHandler]. reflexivity.
Defined.

(** C4 fails as stated: after [main] has started both tasks and the
    server has started one handler, the counter is 2 and one handler is
    live; the counter is not the number of live handlers. *)
Lemma wg_counter_is_not_live_handlers :
  ~ (forall p, reachable p -> wg (pworld p) = handlersLive p).
Proof.
  intros H.
  specialize (H (mkProg (mkWorld 2 [] false) MainWaiting Running Running 1 0)).
  assert (R : reachable (mkProg (mkWorld 2 [] false) MainWaiting Running Running 1 0)).
  { exists [EvAdd; EvGoServer; EvGoClient; EvSpawnHandler]. reflexivity. }
  apply H in R. vm_compute in R. discriminate R.
Qed.

(** ** The handler at concrete connections *)

(** C1 fails as stated: the requests ["8"] and ["27"] are on the
    stream and the write of the first response fails; the turn does not
    break the loop, the next turn reads ["27"], and the handler ends
    only at the end of the stream, having answered ["27"]. *)
Lemma write_failure_next_request_read :
  let c := newConn (request 0 "8" ++ request 0 "27")%list
                   [WriteFail 0 (NetError false "broken pipe")] in
  let r1 := exampleBody c world0 in
  let r2 := exampleBody (snd (fst r1)) (snd r1) in
  fst (fst r1) = Continue /\
  printed "Write Error: broken pipe" (snd r1) = true /\
  printed "Received request: 27." (snd r2) = true /\
  option_map (fun r => string_of_list_ascii (wire (fst r)))
             (exampleHandleConn c world0) =
    Some ("The cube root of 27 is #." ++ String DELIMITER EmptyString).
Proof. repeat split; reflexivity. Qed.

(** * Further properties *)

(** ** The parser, both ways *)

Lemma uint_loop_sound maxVal s : forall n v,
  strconv.uint_loop maxVal s n = inl v -> digits_value s n = Some v.
Proof.
  induction s as [|c s IH]; cbn [strconv.uint_loop digits_value]; intros n v H.
  - inversion H; reflexivity.
  - destruct (strconv.digit c) as [d|]; [|discriminate].
    destruct (strconv.maxUint64 / 10 + 1 <=? n); [discriminate|].
    destruct ((strconv.maxUint64 <? n * 10 + d) || (maxVal <? n * 10 + d));
      [discriminate|].
    apply IH. exact H.
Qed.

Lemma uint_loop_not_digits maxVal s : forall n,
  digits_value s n = None ->
  exists e, strconv.uint_loop maxVal s n = inr e.
Proof.
  induction s as [|c s IH]; cbn [strconv.uint_loop digits_value]; intros n H.
  - discriminate.
  - destruct (strconv.digit c) as [d|]; [|eexists; reflexivity].
    destruct (strconv.maxUint64 / 10 + 1 <=? n); [eexists; reflexivity|].
    destruct ((strconv.maxUint64 <? n * 10 + d) || (maxVal <? n * 10 + d));
      [eexists; reflexivity|].
    apply IH. exact H.
Qed.

(** [ParseUint] at the width of [int]: a result without error is the
    value of the digits; a string that is not a run of digits gives an
    error. *)
Lemma ParseUint10_sound s un :
  strconv.ParseUint10 s 0 = (un, None) -> unsigned_literal s = Some un.
Proof.
  destruct s as [|c s]; [discriminate|].
  unfold strconv.ParseUint10, unsigned_literal.
  destruct (strconv.uint_loop _ (String c s) 0) as [n|[|]] eqn:E; try discriminate.
  intros H; inversion H; subst. eapply uint_loop_sound; exact E.
Qed.

Lemma ParseUint10_error_value s un e :
  strconv.ParseUint10 s 0 = (un, Some e) ->
  e = strconv.ErrSyntax \/ (e = strconv.ErrRange /\ un = strconv.maxUint64).
Proof.
  destruct s as [|c s].
  - intros H; inversion H; left; reflexivity.
  - unfold strconv.ParseUint10.
    destruct (strconv.uint_loop _ (String c s) 0) as [n|[|]]; try discriminate;
      intros H; inversion H; subst; [left|right; split]; reflexivity.
Qed.

Lemma ParseUint10_not_literal s :
  unsigned_literal s = None ->
  exists un e, strconv.ParseUint10 s 0 = (un, Some e).
Proof.
  destruct s as [|c s]; [intros _; eexists; eexists; reflexivity|].
  unfold strconv.ParseUint10, unsigned_literal. intros H.
  destruct (uint_loop_not_digits
              (2 ^ (if 0 =? 0 then IntSize else 0) - 1) (String c s) 0 H)
    as [e He].
  rewrite He. destruct e; eexists; eexists; reflexivity.
Qed.

(** The sign handling of [ParseInt], once for each sign. *)
Lemma ParseInt10_sign_sound (neg : bool) s' v :
  (match strconv.ParseUint10 s' 0 with
   | (_, Some strconv.ErrSyntax) => (0, Some strconv.ErrSyntax)
   | (un, _) =>
       let bitSize := if 0 =? 0 then IntSize else 0 in
       let cutoff := 2 ^ (bitSize - 1) in
       if negb neg && (cutoff <=? un) then (cutoff - 1, Some strconv.ErrRange)
       else if neg && (cutoff <? un) then (- cutoff, Some strconv.ErrRange)
       else (if neg then - un else un, None)
   end) = (v, None) ->
  option_map (fun u => if neg then - u else u) (unsigned_literal s') = Some v.
Proof.
  destruct (strconv.ParseUint10 s' 0) as [un [e|]] eqn:EU.
  - apply ParseUint10_error_value in EU.
    destruct EU as [->|[-> ->]]; [discriminate|].
    destruct neg; cbn; discriminate.
  - apply ParseUint10_sound in EU. rewrite EU. cbv zeta.
    destruct (negb neg && _); [discriminate|].
    destruct (neg && _); [discriminate|].
    intros H; inversion H; reflexivity.
Qed.

Lemma ParseInt10_sound s v :
  strconv.ParseInt10 s 0 = (v, None) -> int_literal s = Some v.
Proof.
  destruct s as [|c0 rest]; [discriminate|].
  unfold strconv.ParseInt10, int_literal.
  destruct (Ascii.eqb c0 "+"); [|destruct (Ascii.eqb c0 "-")]; intros H.
  - apply (ParseInt10_sign_sound false) in H.
    destruct (unsigned_literal rest); cbn in H |- *; congruence.
  - apply (ParseInt10_sign_sound true) in H.
    destruct (unsigned_literal rest); cbn in H |- *; congruence.
  - apply (ParseInt10_sign_sound false) in H.
    destruct (unsigned_literal (String c0 rest)); cbn in H |- *; congruence.
Qed.

Lemma ParseInt10_sign_not_literal (neg : bool) s' :
  unsigned_literal s' = None ->
  exists n e,
    (match strconv.ParseUint10 s' 0 with
     | (_, Some strconv.ErrSyntax) => (0, Some strconv.ErrSyntax)
     | (un, _) =>
         let bitSize := if 0 =? 0 then IntSize else 0 in
         let cutoff := 2 ^ (bitSize - 1) in
         if negb neg && (cutoff <=? un) then (cutoff - 1, Some strconv.ErrRange)
         else if neg && (cutoff <? un) then (- cutoff, Some strconv.ErrRange)
         else (if neg then - un else un, None)
     end) = (n, Some e).
Proof.
  intros H. destruct (ParseUint10_not_literal s' H) as (un & e & EU).
  rewrite EU. apply ParseUint10_error_value in EU.
  destruct EU as [->|[-> ->]]; [eexists; eexists; reflexivity|].
  destruct neg; eexists; eexists; reflexivity.
Qed.

Lemma ParseInt10_not_literal s :
  int_literal s = None -> exists n e, strconv.ParseInt10 s 0 = (n, Some e).
Proof.
  destruct s as [|c0 rest]; [intros _; eexists; eexists; reflexivity|].
  unfold strconv.ParseInt10, int_literal.
  destruct (Ascii.eqb c0 "+"); [|destruct (Ascii.eqb c0 "-")]; intros H.
  - apply (ParseInt10_sign_not_literal false). exact H.
  - apply (ParseInt10_sign_not_literal true).
    destruct (unsigned_literal rest); [discriminate|reflexivity].
  - apply (ParseInt10_sign_not_literal false). exact H.
Qed.

(** X1.  A request that [strToInt32] accepts is a base-10 integer
    literal, the result is its value, and the value is a signed 32-bit
    integer: nothing else is ever passed on to [cbrt]. *)
Theorem strToInt32_accepts_only_int32_literals (s : string) (v : Z) :
  strToInt32 s = (v, None) ->
  int_literal s = Some v /\ MinInt32 <= v <= MaxInt32.
Proof.
  unfold strToInt32.
  destruct (strconv.ParseInt10 s 0) as [num [e|]] eqn:EP; [discriminate|].
  destruct ((MaxInt32 <? num) || (num <? MinInt32)) eqn:ER; [discriminate|].
  intros H; inversion H; subst num.
  apply orb_false_iff in ER. destruct ER as [E1 E2].
  apply Z.ltb_ge in E1. apply Z.ltb_ge in E2.
  split; [apply ParseInt10_sound; exact EP|lia].
Qed.

Lemma strToInt32_accepts_only_int32_literals_witness :
  int_literal "-2147483648" = Some (-2147483648) /\
  MinInt32 <= -2147483648 <= MaxInt32.
Proof.
  apply (strToInt32_accepts_only_int32_literals "-2147483648" (-2147483648)).
  reflexivity.
Defined.

(** X2.  A text that is not a base-10 integer literal (the empty text,
    a lone sign, a text with a character that is not a digit) is
    refused with the "is not integer" failure carrying the text. *)
Theorem strToInt32_refuses_non_literals (s : string) :
  int_literal s = None ->
  strToInt32 s = (0, Some (NotInteger s)).
Proof.
  intros H. destruct (ParseInt10_not_literal s H) as (n & e & EP).
  unfold strToInt32. rewrite EP. reflexivity.
Qed.

Lemma strToInt32_refuses_non_literals_witness :
  strToInt32 "12a" = (0, Some (NotInteger "12a")).
Proof.
  apply (strToInt32_refuses_non_literals "12a"). reflexivity.
Defined.

(** X3.  Every base-10 integer literal whose value is a signed 32-bit
    integer is accepted with that value, whatever its spelling (a plus
    sign, leading zeros). *)
Theorem strToInt32_accepts_int32_literals (s : string) (v : Z) :
  int_literal s = Some v ->
  MinInt32 <= v <= MaxInt32 ->
  strToInt32 s = (v, None).
Proof. exact (strToInt32_in_range s v). Qed.

Lemma strToInt32_accepts_int32_literals_witness :
  strToInt32 "+0027" = (27, None).
Proof.
  apply (strToInt32_accepts_int32_literals "+0027" 27).
  - reflexivity.
  - unfold MinInt32, MaxInt32. lia.
Defined.

(** ** Printing with [%d] and parsing back *)

Lemma digits_value_string_of_uint d : forall acc,
  digits_value (NilEmpty.string_of_uint d) acc = Some (uint_value d acc).
Proof.
  induction d; intros acc; cbn [NilEmpty.string_of_uint uint_value];
    [reflexivity|..]; cbn [digits_value];
    match goal with
    | |- context [strconv.digit ?c] =>
        change (strconv.digit c) with (Some (Z.of_nat (nat_of_ascii c) - 48))
    end; cbn [nat_of_ascii]; apply IHd.
Qed.

Lemma of_uint_acc_value d : forall p,
  Z.pos (Pos.of_uint_acc d p) = uint_value d (Z.pos p).
Proof.
  induction d; intros p; cbn [Pos.of_uint_acc uint_value];
    [reflexivity|..]; rewrite IHd; f_equal; lia.
Qed.

Lemma of_uint_value d : Z.of_uint d = uint_value d 0.
Proof.
  unfold Z.of_uint.
  induction d; cbn [Pos.of_uint uint_value]; try reflexivity;
    try (cbn [Z.of_N]; rewrite of_uint_acc_value; reflexivity).
  exact IHd.
Qed.

Lemma string_of_uint_first_digit d :
  d <> Decimal.Nil ->
  exists c rest,
    NilEmpty.string_of_uint d = String c rest /\
    Ascii.eqb c "+" = false /\ Ascii.eqb c "-" = false.
Proof.
  destruct d; [congruence|..]; intros _; eexists; eexists;
    (split; [reflexivity|split; reflexivity]).
Qed.

Lemma unsigned_literal_string_of_uint d :
  d <> Decimal.Nil ->
  unsigned_literal (NilEmpty.string_of_uint d) = Some (Z.of_uint d).
Proof.
  intros Hd. destruct (string_of_uint_first_digit d Hd) as (c & rest & E & _).
  unfold unsigned_literal.
  rewrite of_uint_value, <- digits_value_string_of_uint.
  rewrite E. reflexivity.
Qed.

(** The text that [%d] prints for an integer is a literal of that
    integer. *)
Lemma int_literal_fmt_d z : int_literal (fmt_d z) = Some z.
Proof.
  unfold fmt_d.
  assert (Hnz : forall d, d <> Decimal.Nil ->
                          NilZero.string_of_uint d = NilEmpty.string_of_uint d).
  { destruct d; [congruence|..]; reflexivity. }
  destruct z as [|p|p].
  - reflexivity.
  - pose proof (DecimalPos.Unsigned.to_uint_nonnil p) as Hd.
    change (Z.to_int (Z.pos p)) with (Decimal.Pos (Pos.to_uint p)).
    cbn [NilZero.string_of_int]. rewrite (Hnz _ Hd).
    destruct (string_of_uint_first_digit _ Hd) as (c & rest & E & Hp & Hm).
    pose proof (unsigned_literal_string_of_uint _ Hd) as HU.
    rewrite E in *. unfold int_literal. rewrite Hp, Hm, HU.
    f_equal. change (Z.of_uint (Pos.to_uint p)) with (Z.of_int (Z.to_int (Z.pos p))).
    apply DecimalZ.of_to.
  - pose proof (DecimalPos.Unsigned.to_uint_nonnil p) as Hd.
    change (Z.to_int (Z.neg p)) with (Decimal.Neg (Pos.to_uint p)).
    cbn [NilZero.string_of_int]. rewrite (Hnz _ Hd).
    pose proof (unsigned_literal_string_of_uint _ Hd) as HU.
    cbn [int_literal]. change (Ascii.eqb "-" "+") with false.
    change (Ascii.eqb "-" "-") with true. cbv iota. rewrite HU.
    cbn [option_map]. f_equal.
    change (- Z.of_uint (Pos.to_uint p)) with (Z.of_int (Z.to_int (Z.neg p))).
    apply DecimalZ.of_to.
Qed.

(** X4.  Round trip between the two ends: the text that the client's
    [fmt.Sprintf("%d", req)] prints for a signed 32-bit integer is
    parsed by the server's [strToInt32] to that integer. *)
Theorem strToInt32_fmt_d_roundtrip (v : Z) :
  MinInt32 <= v <= MaxInt32 ->
  strToInt32 (fmt_d v) = (v, None).
Proof.
  intros Hv. apply strToInt32_in_range; [apply int_literal_fmt_d|exact Hv].
Qed.

Lemma strToInt32_fmt_d_roundtrip_witness :
  strToInt32 (fmt_d (-2147483648)) = (-2147483648, None).
Proof.
  apply (strToInt32_fmt_d_roundtrip (-2147483648)).
  unfold MinInt32, MaxInt32. lia.
Defined.

(** ** The codec at the end of the stream and on failures *)

(** Bytes that are there before the deadline and are not the delimiter
    are gathered one by one; the loop is then where the stream goes on. *)
Lemma read_loop_gather tail got : forall fuel c rb buf,
  Forall (fun p => before_deadline c (fst p) = true /\ snd p <> DELIMITER) got ->
  incoming c = (arrivals got ++ tail)%list ->
  exists c1 rb1,
    read_loop (List.length got + fuel) c rb buf =
      read_loop fuel c1 rb1 (buf ++ map snd got)%list /\
    incoming c1 = tail /\ same_but_stream c c1.
Proof.
  induction got as [|[t0 b0] got IH]; intros fuel c rb buf Hgot Hin.
  - exists c, rb. cbn. rewrite app_nil_r.
    split; [reflexivity|]. split; [exact Hin|apply same_but_stream_refl].
  - inversion Hgot as [|? ? [Ht0 Hb0] Hgot']; subst. cbn [fst snd] in Ht0, Hb0.
    set (c0 := with_incoming c (arrivals got ++ tail)%list (Z.max (clock c) t0)).
    destruct (IH fuel c0 b0 (buf ++ [b0])%list) as (c1 & rb1 & HR & Hin1 & Hs).
    + eapply Forall_impl; [|exact Hgot'].
      intros p Hp. unfold c0. rewrite before_deadline_with_incoming. exact Hp.
    + reflexivity.
    + exists c1, rb1. split; [|split].
      * cbn [List.length Nat.add read_loop]. unfold conn_Read.
        rewrite Hin. cbn [arrivals map app fst snd]. rewrite Ht0.
        apply Ascii.eqb_neq in Hb0. rewrite Hb0.
        fold (arrivals got). fold c0. rewrite HR.
        cbn [map snd]. rewrite <- app_assoc. reflexivity.
      * exact Hin1.
      * eapply same_but_stream_trans; [|exact Hs]. repeat split.
Qed.

Lemma read_fuel_split c got tail :
  incoming c = (arrivals got ++ tail)%list ->
  read_fuel c = (List.length got + S (List.length tail))%nat.
Proof.
  intros Hin. unfold read_fuel. rewrite Hin. unfold arrivals.
  rewrite length_app, length_map. lia.
Qed.

(** X5.  Peer closure before a delimiter: when the stream ends after
    some bytes of a message, none of them the delimiter, [read] fails
    with [io.EOF] and returns the empty string; the bytes received are
    not handed out as a message. *)
Theorem read_peer_closed_before_delimiter
        (c : Conn) (got : list (Z * ascii)) :
  Forall (fun p => before_deadline c (fst p) = true /\ snd p <> DELIMITER) got ->
  incoming c = arrivals got ->
  exists c', read c = (c', "", Some EOF) /\ incoming c' = [] /\
             same_but_stream c c'.
Proof.
  intros Hgot Hin. rewrite <- (app_nil_r (arrivals got)) in Hin.
  destruct (read_loop_gather [] got 1 c zero [] Hgot Hin)
    as (c1 & rb1 & HR & Hin1 & Hs).
  pose proof (read_is_read_loop c) as H.
  rewrite (read_fuel_split c got [] Hin) in H. cbn [List.length] in H.
  rewrite HR in H. cbn [read_loop] in H. unfold conn_Read in H.
  rewrite Hin1 in H. inversion H as [H1].
  exists c1. repeat split; try assumption; apply Hs.
Qed.

Lemma read_peer_closed_before_delimiter_witness :
  exists c', read (newConn (arrivals [(0, "4"%char); (3, "2"%char)]) []) =
               (c', "", Some EOF) /\
             incoming c' = [] /\
             same_but_stream (newConn (arrivals [(0, "4"%char); (3, "2"%char)]) []) c'.
Proof.
  apply (read_peer_closed_before_delimiter
           (newConn (arrivals [(0, "4"%char); (3, "2"%char)]) [])
           [(0, "4"%char); (3, "2"%char)]).
  - repeat constructor; discriminate.
  - reflexivity.
Defined.

(** X6.  A transport failure in the middle of a message: [read] returns
    that very error and the empty string, and stops reading there: what
    follows the failure stays on the stream. *)
Theorem read_transport_failure
        (c : Conn) (got : list (Z * ascii)) (e : error) (rest : list ReadEvent) :
  Forall (fun p => before_deadline c (fst p) = true /\ snd p <> DELIMITER) got ->
  incoming c = (arrivals got ++ ReadFail e :: rest)%list ->
  exists c', read c = (c', "", Some e) /\ incoming c' = rest /\
             same_but_stream c c'.
Proof.
  intros Hgot Hin.
  destruct (read_loop_gather (ReadFail e :: rest) got
              (S (List.length (ReadFail e :: rest))) c zero [] Hgot Hin)
    as (c1 & rb1 & HR & Hin1 & Hs).
  pose proof (read_is_read_loop c) as H.
  rewrite (read_fuel_split c got _ Hin) in H.
  rewrite HR in H. cbn [read_loop] in H. unfold conn_Read in H.
  rewrite Hin1 in H. inversion H as [H1].
  eexists. split; [reflexivity|]. split; [reflexivity|].
  eapply same_but_stream_trans; [exact Hs|]. repeat split.
Qed.

Lemma read_transport_failure_witness :
  exists c',
    read (newConn (arrivals [(0, "4"%char)] ++
                   ReadFail (NetError false "connection reset by peer")
                     :: request 0 "8")%list []) =
      (c', "", Some (NetError false "connection reset by peer")) /\
    incoming c' = request 0 "8" /\
    same_but_stream
      (newConn (arrivals [(0, "4"%char)] ++
                ReadFail (NetError false "connection reset by peer")
                  :: request 0 "8")%list []) c'.
Proof.
  apply (read_transport_failure
           (newConn (arrivals [(0, "4"%char)] ++
                     ReadFail (NetError false "connection reset by peer")
                       :: request 0 "8")%list [])
           [(0, "4"%char)]).
  - repeat constructor; discriminate.
  - reflexivity.
Defined.

(** The buffer of the loop never takes in the delimiter. *)
Lemma read_loop_no_delimiter fuel : forall c rb buf c' s,
  ~ In DELIMITER buf ->
  read_loop fuel c rb buf = Some (c', s, None) ->
  ~ In DELIMITER (list_ascii_of_string s).
Proof.
  induction fuel as [|fuel IH]; intros c rb buf c' s Hbuf; [discriminate|].
  cbn [read_loop].
  destruct (conn_Read c rb) as [[[c1 rb1] n] [e|]]; [discriminate|].
  destruct (Ascii.eqb rb1 DELIMITER) eqn:E.
  - intros H; inversion H; subst.
    rewrite list_ascii_of_string_of_list_ascii. exact Hbuf.
  - apply IH. intros HIn. apply in_app_or in HIn.
    destruct HIn as [HIn|[HIn|[]]]; [exact (Hbuf HIn)|].
    apply Ascii.eqb_neq in E. congruence.
Qed.

(** X7.  Whatever the stream brings (zero-byte reads included), a
    message that [read] returns never contains the delimiter byte. *)
Theorem read_message_has_no_delimiter (c c' : Conn) (s : string) :
  read c = (c', s, None) ->
  ~ In DELIMITER (list_ascii_of_string s).
Proof.
  intros H. pose proof (read_is_read_loop c) as HR. rewrite H in HR.
  eapply read_loop_no_delimiter; [|exact HR]. intros [].
Qed.

Lemma read_message_has_no_delimiter_witness :
  ~ In DELIMITER (list_ascii_of_string "112").
Proof.
  apply (read_message_has_no_delimiter
           (newConn [Arrive 0 "1"; ZeroRead; Arrive 0 "2"; Arrive 0 DELIMITER;
                     Arrive 0 "3"] [])
           (with_incoming
              (newConn [Arrive 0 "1"; ZeroRead; Arrive 0 "2"; Arrive 0 DELIMITER;
                        Arrive 0 "3"] [])
              [Arrive 0 "3"] 0)
           "112").
  reflexivity.
Defined.

(** ** Payloads that hold the delimiter *)

Lemma list_ascii_of_string_app s1 s2 :
  list_ascii_of_string (s1 ++ s2) =
    (list_ascii_of_string s1 ++ list_ascii_of_string s2)%list.
Proof.
  induction s1 as [|a s1 IH]; cbn; [reflexivity|]. rewrite IH. reflexivity.
Qed.

(** What a write that succeeds has put on the wire. *)
Lemma write_sent_ok c content :
  snd (write c content) = None ->
  sent_between c (fst (fst (write c content))) = framed content.
Proof.
  unfold write, conn_Write, sent_between, framed.
  destruct (wscript c) as [|[|n e] ws]; cbn [fst snd wire]; try discriminate;
    intros _; rewrite skipn_app, skipn_all, Nat.sub_diag; reflexivity.
Qed.

Lemma deliver_app t l1 l2 :
  deliver t (l1 ++ l2) = (deliver t l1 ++ deliver t l2)%list.
Proof. unfold deliver. apply map_app. Qed.

(** X8.  The codec does not escape the delimiter: a payload written
    with a delimiter inside is cut there by the reader.  [read] returns
    the part before the first delimiter, and the part after it stays on
    the stream as a message of its own. *)
Theorem write_read_payload_with_delimiter
        (pre post : string) (cw cr : Conn) (t : Z) (rest : list ReadEvent) :
  ~ In DELIMITER (list_ascii_of_string pre) ->
  snd (write cw (pre ++ String DELIMITER post)) = None ->
  incoming cr =
    (deliver t (sent_between cw
                  (fst (fst (write cw (pre ++ String DELIMITER post))))) ++
     rest)%list ->
  before_deadline cr t = true ->
  read cr = (with_incoming cr (deliver t (framed post) ++ rest)%list
               (Z.max (clock cr) t),
             pre, None).
Proof.
  intros Hno Hok Hin Hdl.
  rewrite (write_sent_ok _ _ Hok) in Hin.
  unfold framed in Hin. rewrite list_ascii_of_string_app in Hin.
  cbn [list_ascii_of_string] in Hin.
  change (DELIMITER :: list_ascii_of_string post)%list
    with ([DELIMITER] ++ list_ascii_of_string post)%list in Hin.
  rewrite app_assoc, <- (app_assoc _ (list_ascii_of_string post)) in Hin.
  rewrite deliver_app, <- app_assoc in Hin.
  rewrite (read_message t _ (list_ascii_of_string pre) cr Hno Hin Hdl).
  rewrite string_of_list_ascii_of_string. reflexivity.
Qed.

Lemma write_read_payload_with_delimiter_witness :
  let payload := "8" ++ String DELIMITER "27" in
  let cr :=
    newConn (deliver 0 (sent_between (newConn [] [])
                          (fst (fst (write (newConn [] []) payload)))) ++ [])%list
            [] in
  read cr = (with_incoming cr (deliver 0 (framed "27") ++ [])%list
               (Z.max (clock cr) 0),
             "8", None).
Proof.
  apply (write_read_payload_with_delimiter "8" "27" (newConn [] []) _ 0 []).
  - cbn. intros [H|[]]; discriminate H.
  - reflexivity.
  - reflexivity.
  - reflexivity.
Defined.

(** At the end of the stream [read] fails with [io.EOF] at once. *)
Lemma read_at_end c :
  incoming c = [] -> read c = (c, "", Some EOF).
Proof.
  intros Hin. unfold read, read_fuel. rewrite Hin.
  cbn [List.length read_loop]. unfold conn_Read. rewrite Hin. reflexivity.
Qed.

(** ** The handler over a whole connection *)

Section HandlerRuns.

Variable float64 : Type.
Variable float64_of_int32 : Z -> float64.
Variable math_Cbrt : float64 -> float64.
Variable fmt_f : float64 -> string.

Local Abbreviation body := (handleConn_body float64 float64_of_int32 math_Cbrt fmt_f).
Local Abbreviation loop := (handleConn_loop float64 float64_of_int32 math_Cbrt fmt_f).
Local Abbreviation run_handler := (handleConn float64 float64_of_int32 math_Cbrt fmt_f).
Local Abbreviation response := (response_of float64 float64_of_int32 math_Cbrt fmt_f).

Lemma printServerLog_keeps msg w :
  wg (printServerLog msg w) = wg w /\
  panicked (printServerLog msg w) = panicked w.
Proof. split; reflexivity. Qed.

(** A turn of the loop neither closes the connection nor touches the
    WaitGroup. *)
Lemma handleConn_body_keeps c w f c' w' :
  body c w = (f, c', w') ->
  closed c' = closed c /\ wg w' = wg w /\ panicked w' = panicked w.
Proof.
  unfold handleConn_body.
  destruct (read (SetReadDeadline c (clock c + 10 * Second)))
    as [[c1 strReq] [e|]] eqn:ER;
    pose proof (read_frame _ _ _ _ ER) as (_ & _ & _ & _ & Hcl & _);
    cbn [closed SetReadDeadline] in Hcl.
  - intros H; inversion H; subst.
    split; [exact Hcl|]. destruct (is_EOF e); split; reflexivity.
  - destruct (strToInt32 strReq) as [intReq [e|]].
    + destruct (write c1 (Error e)) as [[c2 n] err] eqn:EW.
      apply write_frame in EW. destruct EW as (_ & _ & _ & _ & Hc).
      intros H; inversion H; subst.
      split; [congruence|]. split; reflexivity.
    + destruct (write c1 _) as [[c2 n] err] eqn:EW.
      apply write_frame in EW. destruct EW as (_ & _ & _ & _ & Hc).
      intros H; inversion H; subst.
      split; [congruence|]. destruct err; split; reflexivity.
Qed.

Lemma handleConn_loop_keeps fuel : forall c w c' w',
  loop fuel c w = Some (c', w') ->
  closed c' = closed c /\ wg w' = wg w /\ panicked w' = panicked w.
Proof.
  induction fuel as [|fuel IH]; intros c w c' w'; [discriminate|].
  cbn [handleConn_loop].
  destruct (body c w) as [[f c1] w1] eqn:EB.
  apply handleConn_body_keeps in EB. destruct EB as (H1 & H2 & H3).
  destruct f.
  - intros H; inversion H; subst. auto.
  - intros H. apply IH in H. destruct H as (H4 & H5 & H6).
    repeat split; congruence.
Qed.

(** X9.  Resource release on every exit path: whatever the stream and
    the writes do, [handleConn] returns, and when it does the
    connection has been closed exactly once more and the WaitGroup
    counter lowered by exactly one. *)
Theorem handleConn_closes_and_signals_once (c : Conn) (w : World) :
  exists c' w',
    run_handler c w = Some (c', w') /\
    closed c' = S (closed c) /\
    wg w' = wg w - 1.
Proof.
  unfold handleConn, handleConn_fuel.
  destruct (loop (S (List.length (incoming c))) c w) as [[c1 w1]|] eqn:E.
  - apply handleConn_loop_keeps in E. destruct E as (H1 & H2 & _).
    eexists; eexists. split; [reflexivity|].
    cbn [handleConn_deferred fst snd closed Close wg wg_Done wg_Add].
    split; [congruence|lia].
  - exfalso. revert E. apply handleConn_loop_total. lia.
Qed.

End HandlerRuns.

Section HandlerStreams.

Variable float64 : Type.
Variable float64_of_int32 : Z -> float64.
Variable math_Cbrt : float64 -> float64.
Variable fmt_f : float64 -> string.

Local Abbreviation body := (handleConn_body float64 float64_of_int32 math_Cbrt fmt_f).
Local Abbreviation loop := (handleConn_loop float64 float64_of_int32 math_Cbrt fmt_f).
Local Abbreviation run_handler := (handleConn float64 float64_of_int32 math_Cbrt fmt_f).
Local Abbreviation response := (response_of float64 float64_of_int32 math_Cbrt fmt_f).

(** One turn on a whole request that is there in time: one [Write]
    call on the framed response, and the loop goes on with the rest of
    the stream. *)
Lemma handleConn_body_request c w t m rest :
  ~ In DELIMITER (list_ascii_of_string m) ->
  incoming c = (request t m ++ rest)%list ->
  t <= clock c + 10 * Second ->
  exists c2 w2,
    body c w = (Continue, c2, w2) /\
    incoming c2 = rest /\
    wcalls c2 = framed (response m) :: wcalls c /\
    clock c2 = Z.max (clock c) t.
Proof.
  intros Hno Hin Ht.
  set (cd := SetReadDeadline c (clock c + 10 * Second)).
  assert (ER : read cd = (with_incoming cd rest (Z.max (clock cd) t), m, None)).
  { rewrite (read_message t rest (list_ascii_of_string m) cd Hno).
    - rewrite string_of_list_ascii_of_string. reflexivity.
    - exact Hin.
    - unfold before_deadline. cbn [readDeadline cd SetReadDeadline].
      apply Z.leb_le. exact Ht. }
  unfold handleConn_body, response_of. fold cd. rewrite ER.
  destruct (strToInt32 m) as [intReq [e|]].
  - destruct (write _ (Error e)) as [[c2 n] err] eqn:EW.
    apply write_frame in EW. destruct EW as (Hw & Hi & _ & Hc & _).
    eexists; eexists. split; [reflexivity|].
    split; [exact Hi|]. split; [exact Hw|exact Hc].
  - destruct (write _ (respMsg_of _ _ _ _ intReq)) as [[c2 n] err] eqn:EW.
    apply write_frame in EW. destruct EW as (Hw & Hi & _ & Hc & _).
    eexists; eexists. split; [reflexivity|].
    split; [exact Hi|]. split; [exact Hw|exact Hc].
Qed.

(** The loop over a run of whole requests. *)
Lemma handleConn_loop_requests t tail msgs : forall fuel c w,
  Forall (fun m => ~ In DELIMITER (list_ascii_of_string m)) msgs ->
  incoming c = (requests t msgs ++ tail)%list ->
  t <= clock c + 10 * Second ->
  exists c1 w1,
    loop (List.length msgs + fuel) c w = loop fuel c1 w1 /\
    incoming c1 = tail /\
    wcalls c1 = (rev (map (fun m => framed (response m)) msgs) ++ wcalls c)%list.
Proof.
  induction msgs as [|m msgs IH]; intros fuel c w Hno Hin Ht.
  - exists c, w. repeat split. exact Hin.
  - inversion Hno as [|? ? Hm Hms]; subst.
    cbn [requests flat_map] in Hin. rewrite <- app_assoc in Hin.
    destruct (handleConn_body_request c w t m _ Hm Hin Ht)
      as (c2 & w2 & HB & Hi2 & Hw2 & Hc2).
    assert (Ht2 : t <= clock c2 + 10 * Second) by lia.
    destruct (IH fuel c2 w2 Hms Hi2 Ht2) as (c1 & w1 & HL & Hi1 & Hw1).
    exists c1, w1. split; [|split].
    + cbn [List.length Nat.add handleConn_loop]. rewrite HB. exact HL.
    + exact Hi1.
    + rewrite Hw1, Hw2. cbn [map rev]. rewrite <- app_assoc. reflexivity.
Qed.

Lemma requests_length t msgs :
  (List.length msgs <= List.length (requests t msgs))%nat.
Proof.
  induction msgs as [|m msgs IH]; [cbn; lia|].
  change (requests t (m :: msgs)) with (request t m ++ requests t msgs)%list.
  rewrite length_app. unfold request, deliver.
  rewrite length_map, length_app. cbn [List.length]. lia.
Qed.

(** The handler over a run of whole requests followed by the end of
    the stream. *)
Lemma handleConn_run_requests
        (c : Conn) (w : World) (t : Z) (msgs : list string) :
  Forall (fun m => ~ In DELIMITER (list_ascii_of_string m)) msgs ->
  incoming c = requests t msgs ->
  t <= clock c + 10 * Second ->
  exists c' w',
    run_handler c w = Some (c', w') /\
    incoming c' = [] /\
    wcalls c' = (rev (map (fun m => framed (response m)) msgs) ++ wcalls c)%list.
Proof.
  intros Hno Hin Ht.
  rewrite <- (app_nil_r (requests t msgs)) in Hin.
  pose proof (requests_length t msgs) as Hlen.
  set (k := (List.length (requests t msgs) - List.length msgs)%nat).
  destruct (handleConn_loop_requests t [] msgs (S k) c w Hno Hin Ht)
    as (c1 & w1 & HL & Hi1 & Hw1).
  assert (HB : body c1 w1 =
               (Break, with_incoming (SetReadDeadline c1 (clock c1 + 10 * Second))
                         [] (clock c1),
                printServerLog "The connection is closed by another side." w1)).
  { assert (ER : read (SetReadDeadline c1 (clock c1 + 10 * Second)) =
                 (SetReadDeadline c1 (clock c1 + 10 * Second), "", Some EOF)).
    { apply read_at_end. exact Hi1. }
    unfold handleConn_body. rewrite ER. cbn [is_EOF].
    unfold with_incoming, SetReadDeadline.
    cbn [incoming wscript wcalls wire readDeadline clock closed remoteAddr].
    rewrite Hi1. reflexivity. }
  unfold handleConn, handleConn_fuel.
  replace (S (List.length (incoming c)))
    with (List.length msgs + S k)%nat
    by (rewrite Hin, app_nil_r; unfold k; lia).
  rewrite HL. cbn [handleConn_loop]. rewrite HB.
  eexists; eexists. split; [reflexivity|].
  split; [reflexivity|exact Hw1].
Qed.

(** X10.  One response per request, in order: when the peer sends the
    requests [msgs] (each without the delimiter, all there within ten
    seconds of the handler's start) and then closes, [handleConn] makes
    exactly one [Write] call per request, in the order of the requests,
    each on the framed response of its request, whether or not the
    writes succeed; it reads the stream to its end and returns. *)
Theorem handleConn_answers_requests_in_order
        (c : Conn) (w : World) (t : Z) (msgs : list string) :
  Forall (fun m => ~ In DELIMITER (list_ascii_of_string m)) msgs ->
  incoming c = requests t msgs ->
  t <= clock c + 10 * Second ->
  exists c' w',
    run_handler c w = Some (c', w') /\
    incoming c' = [] /\
    wcalls c' = (rev (map (fun m => framed (response m)) msgs) ++ wcalls c)%list.
Proof. exact (handleConn_run_requests c w t msgs). Qed.

End HandlerStreams.

Lemma handleConn_answers_requests_in_order_witness :
  let c := newConn (requests 0 ["8"; "abc"; "99999999999"])
                   [WriteFail 0 (NetError false "broken pipe")] in
  exists c' w',
    exampleHandleConn c world0 = Some (c', w') /\
    incoming c' = [] /\
    wcalls c' =
      (rev (map (fun m => framed (response_of unit (fun _ => tt) (fun x => x)
                                               (fun _ => "#") m))
                ["8"; "abc"; "99999999999"]) ++ wcalls c)%list.
Proof.
  apply (handleConn_answers_requests_in_order
           unit (fun _ => tt) (fun x => x) (fun _ => "#")
           (newConn (requests 0 ["8"; "abc"; "99999999999"])
                    [WriteFail 0 (NetError false "broken pipe")])
           world0 0 ["8"; "abc"; "99999999999"]).
  - repeat constructor; cbn; intuition discriminate.
  - reflexivity.
  - vm_compute. discriminate.
Defined.

(** The text that [%d] prints holds no delimiter. *)
Lemma string_of_uint_no_delimiter d :
  ~ In DELIMITER (list_ascii_of_string (NilEmpty.string_of_uint d)).
Proof.
  induction d; cbn [NilEmpty.string_of_uint list_ascii_of_string In];
    [intros []|..]; intros [H|H]; try discriminate H; exact (IHd H).
Qed.

Lemma fmt_d_no_delimiter z :
  ~ In DELIMITER (list_ascii_of_string (fmt_d z)).
Proof.
  assert (Hnz : forall d,
             ~ In DELIMITER (list_ascii_of_string (NilZero.string_of_uint d))).
  { destruct d; try apply string_of_uint_no_delimiter.
    cbn. intros [H|[]]; discriminate H. }
  unfold fmt_d. destruct (Z.to_int z) as [d|d]; cbn [NilZero.string_of_int].
  - apply Hnz.
  - cbn [list_ascii_of_string In]. intros [H|H]; [discriminate H|].
    exact (Hnz d H).
Qed.

Section HandlerEnds.

Variable float64 : Type.
Variable float64_of_int32 : Z -> float64.
Variable math_Cbrt : float64 -> float64.
Variable fmt_f : float64 -> string.

(** X11.  Peer closure in the middle of a request: when the stream
    ends after some bytes of a request that are not followed by the
    delimiter, [handleConn] prints that the other side closed the
    connection, makes no [Write] call and puts nothing on the wire,
    closes the connection and signals the WaitGroup. *)
Theorem handleConn_peer_closed_mid_request
        (c : Conn) (w : World) (got : list (Z * ascii)) :
  Forall (fun p => fst p <= clock c + 10 * Second /\ snd p <> DELIMITER) got ->
  incoming c = arrivals got ->
  exists c1,
    handleConn float64 float64_of_int32 math_Cbrt fmt_f c w =
      Some (Close c1,
            wg_Done (printServerLog
                       "The connection is closed by another side." w)) /\
    incoming c1 = [] /\ wcalls c1 = wcalls c /\ wire c1 = wire c.
Proof.
  intros Hgot Hin.
  set (cd := SetReadDeadline c (clock c + 10 * Second)).
  assert (Hgot' : Forall (fun p => before_deadline cd (fst p) = true /\
                                   snd p <> DELIMITER) got).
  { eapply Forall_impl; [|exact Hgot]. intros p [H1 H2]. split; [|exact H2].
    unfold before_deadline. cbn [readDeadline cd SetReadDeadline].
    apply Z.leb_le. exact H1. }
  assert (Hin' : incoming cd = (arrivals got ++ [])%list).
  { rewrite app_nil_r. exact Hin. }
  destruct (read_loop_gather [] got 1 cd zero [] Hgot' Hin')
    as (c1 & rb1 & HR & Hin1 & Hs).
  pose proof (read_is_read_loop cd) as H.
  rewrite (read_fuel_split cd got [] Hin') in H. cbn [List.length] in H.
  rewrite HR in H. cbn [read_loop] in H. unfold conn_Read in H.
  rewrite Hin1 in H. inversion H as [ER]. clear H.
  destruct Hs as (_ & Hwc & Hwi & _).
  cbn [wcalls wire cd SetReadDeadline] in Hwc, Hwi.
  exists c1. split; [|auto].
  unfold handleConn, handleConn_fuel. cbn [handleConn_loop].
  unfold handleConn_body. fold cd. rewrite <- ER. reflexivity.
Qed.

(** X12.  A signed 32-bit integer sent as the text [%d] prints for it
    is answered by exactly one [Write] call, on the framed text
    "The cube root of <v> is <f>." with that same integer in it, and
    the loop goes on with the rest of the stream. *)
Theorem handleConn_answers_int32
        (c : Conn) (w : World) (t v : Z) (rest : list ReadEvent) :
  MinInt32 <= v <= MaxInt32 ->
  incoming c = (request t (fmt_d v) ++ rest)%list ->
  t <= clock c + 10 * Second ->
  exists c2 w2,
    handleConn_body float64 float64_of_int32 math_Cbrt fmt_f c w =
      (Continue, c2, w2) /\
    incoming c2 = rest /\
    wcalls c2 =
      framed ("The cube root of " ++ fmt_d v ++ " is " ++
              fmt_f (math_Cbrt (float64_of_int32 v)) ++ ".") :: wcalls c.
Proof.
  intros Hv Hin Ht.
  destruct (handleConn_body_request float64 float64_of_int32 math_Cbrt fmt_f
              c w t (fmt_d v) rest (fmt_d_no_delimiter v) Hin Ht)
    as (c2 & w2 & HB & Hi & Hw & _).
  exists c2, w2. split; [exact HB|]. split; [exact Hi|].
  rewrite Hw. unfold response_of.
  rewrite (strToInt32_in_range (fmt_d v) v (int_literal_fmt_d v) Hv).
  reflexivity.
Qed.

End HandlerEnds.

Lemma handleConn_peer_closed_mid_request_witness :
  exists c1,
    exampleHandleConn (newConn (arrivals [(0, "4"%char); (3, "2"%char)]) []) world0 =
      Some (Close c1,
            wg_Done (printServerLog
                       "The connection is closed by another side." world0)) /\
    incoming c1 = [] /\
    wcalls c1 = wcalls (newConn (arrivals [(0, "4"%char); (3, "2"%char)]) []) /\
    wire c1 = wire (newConn (arrivals [(0, "4"%char); (3, "2"%char)]) []).
Proof.
  apply (handleConn_peer_closed_mid_request
           unit (fun _ => tt) (fun x => x) (fun _ => "#")
           (newConn (arrivals [(0, "4"%char); (3, "2"%char)]) []) world0
           [(0, "4"%char); (3, "2"%char)]).
  - repeat constructor; discriminate.
  - reflexivity.
Defined.

Lemma handleConn_answers_int32_witness :
  exists c2 w2,
    exampleBody (newConn (request 0 (fmt_d (-27)) ++ request 0 "8")%list [])
                world0 = (Continue, c2, w2) /\
    incoming c2 = request 0 "8" /\
    wcalls c2 =
      framed ("The cube root of " ++ fmt_d (-27) ++ " is " ++ "#" ++ ".")
        :: wcalls (newConn (request 0 (fmt_d (-27)) ++ request 0 "8")%list []).
Proof.
  apply (handleConn_answers_int32
           unit (fun _ => tt) (fun x => x) (fun _ => "#")
           (newConn (request 0 (fmt_d (-27)) ++ request 0 "8")%list [])
           world0 0 (-27) (request 0 "8")).
  - unfold MinInt32, MaxInt32. lia.
  - reflexivity.
  - vm_compute. discriminate.
Defined.

(** ** The acceptor over a run of accepts *)

Lemma printServerLog_world msg w :
  wg (printServerLog msg w) = wg w.
Proof. reflexivity. Qed.

Lemma serverGo_loop_dispatch accepts : forall s,
  spawned (snd (serverGo_loop accepts s)) =
    (spawned s ++ leading_conns accepts)%list /\
  wg (world (snd (serverGo_loop accepts s))) = wg (world s) /\
  fst (serverGo_loop accepts s) =
    if forallb has_conn accepts then AwaitingAccept else NilConnPanic.
Proof.
  induction accepts as [|[[c|] err] accepts IH]; intros s.
  - cbn. rewrite app_nil_r. auto.
  - cbn [serverGo_loop serverGo_body leading_conns forallb has_conn fst andb].
    destruct (IH (mkServer
                    (printServerLog
                       ("Established a connection with a client application. " ++
                        "(remote address: " ++ remoteAddr c ++ ")")
                       match err with
                       | Some e => printServerLog ("Accept Error: " ++ Error e) (world s)
                       | None => world s
                       end)
                    (spawned s ++ [c])%list)) as (H1 & H2 & H3).
    rewrite H1, H2, H3. cbn [spawned world].
    rewrite <- app_assoc. repeat split.
    destruct err; reflexivity.
  - cbn [serverGo_loop serverGo_body leading_conns forallb has_conn fst snd andb
         spawned world wg].
    rewrite app_nil_r. repeat split. destruct err; reflexivity.
Qed.

(** X13.  What the acceptor hands out: after a successful [Listen],
    exactly the connections accepted before the first accept that
    returns no connection are passed to [go handleConn], in the order
    they were accepted; [serverGo] then either waits in [Accept] or has
    panicked on the missing connection.  After a failed [Listen] no
    handler is started.  In no case does [serverGo] touch the
    WaitGroup counter. *)
Theorem serverGo_dispatches_accepted_connections
        (listen : option error) (addr : string)
        (accepts : list AcceptResult) (w : World) :
  spawned (snd (serverGo listen addr accepts w)) =
    match listen with
    | Some _ => []
    | None => leading_conns accepts
    end /\
  fst (serverGo listen addr accepts w) =
    match listen with
    | Some _ => ListenFailed
    | None => if forallb has_conn accepts then AwaitingAccept else NilConnPanic
    end /\
  wg (world (snd (serverGo listen addr accepts w))) = wg w.
Proof.
  destruct listen as [e|]; cbn [serverGo].
  - repeat split.
  - destruct (serverGo_loop_dispatch accepts
                (mkServer
                   (printServerLog
                      ("Got listener for the server. (local address: " ++
                       addr ++ ")") w) [])) as (H1 & H2 & H3).
    rewrite H1, H2, H3. repeat split.
Qed.

(** ** The WaitGroup over the life of the program *)

Lemma prog_invariant_step e p p' :
  wg_invariant p -> prog_invariant p -> step e p = Some p' -> prog_invariant p'.
Proof.
  unfold wg_invariant, prog_invariant, step, mainAdded, clientDone,
    wg_Done, wg_Add.
  intros [Hwg Hcl] (Hle & Hns & Hpc & Hpan & Hlow & Hret).
  destruct (panicked (pworld p)) eqn:Ep; [discriminate|].
  symmetry in Hpan. apply Z.ltb_ge in Hpan.
  destruct e; destruct (mainPc p) eqn:Epc; try discriminate;
    repeat match goal with
    | |- context [if ?b then _ else _] => destruct b eqn:?; try discriminate
    end;
    intros H; inversion H; subst; clear H;
    cbn [wg pworld mainPc client server handlersStarted handlersEnded panicked] in *;
    repeat match goal with
    | H : (_ <? _)%nat = true |- _ => apply Nat.ltb_lt in H
    | H : (_ =? _) = true |- _ => apply Z.eqb_eq in H
    | H : task_eqb ?t Running = true |- _ =>
        destruct t eqn:?; cbn [task_eqb] in H; try discriminate H
    end;
    repeat split; try assumption; try congruence; try lia; try discriminate;
    try (rewrite Ep; symmetry; cbn [orb];
         first [apply Z.ltb_ge; lia | reflexivity]);
    try (intros; exfalso; congruence).
Qed.

Lemma invariants_run evs : forall p p',
  wg_invariant p -> prog_invariant p -> run evs p = Some p' ->
  wg_invariant p' /\ prog_invariant p'.
Proof.
  induction evs as [|e evs IH]; cbn [run]; intros p p' H1 H2 H.
  - inversion H; subst. split; assumption.
  - destruct (step e p) as [p1|] eqn:Es; [|discriminate].
    eapply IH; [| |exact H].
    + eapply wg_invariant_step; eassumption.
    + eapply prog_invariant_step; eassumption.
Qed.

Lemma reachable_invariants p :
  reachable p -> wg_invariant p /\ prog_invariant p.
Proof.
  intros [evs Hrun]. eapply invariants_run; [| |exact Hrun].
  - split; reflexivity.
  - unfold prog_invariant. cbn. repeat split; try lia; discriminate.
Qed.

Lemma run_app evs1 : forall evs2 p p1,
  run evs1 p = Some p1 -> run (evs1 ++ evs2) p = run evs2 p1.
Proof.
  induction evs1 as [|e evs1 IH]; cbn [run app]; intros evs2 p p1 H.
  - inversion H; reflexivity.
  - destruct (step e p) as [p0|]; [|discriminate]. apply IH. exact H.
Qed.

(** X14.  When [wg.Wait()] in [main] has returned, exactly two of the
    tasks that signal the WaitGroup have ended: the handlers ended plus
    one for an ended client make two.  The end of [serverGo] itself is
    never waited for. *)
Theorem main_returns_after_two_signals (p : Prog) :
  reachable p ->
  mainPc p = MainReturned ->
  Z.of_nat (handlersEnded p) + clientDone p = 2.
Proof.
  intros HR Hpc.
  destruct (reachable_invariants p HR) as [[Hwg _] (_ & _ & _ & _ & _ & Hret)].
  specialize (Hret Hpc). unfold mainAdded in Hwg. rewrite Hpc in Hwg. lia.
Qed.

Lemma main_returns_after_two_signals_witness :
  let p := mkProg (mkWorld 0 [] false) MainReturned Running Finished 1 1 in
  Z.of_nat (handlersEnded p) + clientDone p = 2.
Proof.
  apply (main_returns_after_two_signals
           (mkProg (mkWorld 0 [] false) MainReturned Running Finished 1 1)).
  - exists [EvAdd; EvGoServer; EvGoClient; EvSpawnHandler; EvClientEnd;
            EvHandlerEnd; EvWaitReturns]. reflexivity.
  - reflexivity.
Defined.

(** X15.  The process panics on a negative WaitGroup counter exactly
    when a third task has signalled it: in every state the program can
    reach, a panic has happened if and only if the handlers ended plus
    one for an ended client make three. *)
Theorem wg_panics_on_third_signal (p : Prog) :
  reachable p ->
  (panicked (pworld p) = true <->
   Z.of_nat (handlersEnded p) + clientDone p = 3).
Proof.
  intros HR.
  destruct (reachable_invariants p HR)
    as [[Hwg Hcl] (Hle & Hns & Hpc & Hpan & Hlow & _)].
  rewrite Hpan. unfold mainAdded, clientDone in *.
  split; intros H; [apply Z.ltb_lt in H|apply Z.ltb_lt];
    destruct (mainPc p); destruct (client p) eqn:Ec;
    try (specialize (Hns Hpc)); try discriminate Hcl; lia.
Qed.

Lemma wg_panics_on_third_signal_witness :
  let p := mkProg (mkWorld (-1) [] true) MainWaiting Running Finished 2 2 in
  panicked (pworld p) = true <->
  Z.of_nat (handlersEnded p) + clientDone p = 3.
Proof.
  apply (wg_panics_on_third_signal
           (mkProg (mkWorld (-1) [] true) MainWaiting Running Finished 2 2)).
  exists [EvAdd; EvGoServer; EvGoClient; EvSpawnHandler; EvSpawnHandler;
          EvClientEnd; EvHandlerEnd; EvHandlerEnd]. reflexivity.
Defined.

Lemma server_returned_step e p p' :
  prog_invariant p ->
  server p = Finished -> handlersStarted p = 0%nat ->
  step e p = Some p' ->
  server p' = Finished /\ handlersStarted p' = 0%nat.
Proof.
  unfold prog_invariant, step.
  intros (_ & _ & Hpc & _) Hs Hh.
  destruct (panicked (pworld p)); [discriminate|].
  destruct e; destruct (mainPc p) eqn:Epc; try discriminate;
    try congruence;
    repeat match goal with
    | |- context [if ?b then _ else _] => destruct b eqn:?; try discriminate
    end;
    try (rewrite Hs in *; cbn [task_eqb] in *; discriminate);
    intros H; inversion H; subst; clear H; cbn; auto.
Qed.

(** X16.  When [serverGo] has returned without starting a handler (its
    [Listen] failed), [wg.Wait()] in [main] never returns, whatever the
    tasks do from then on: [serverGo] has no [wg.Done()], and at most
    the client is left to signal a counter of two. *)
Theorem main_blocks_forever_after_listen_failure
        (p : Prog) (evs : list Event) (p' : Prog) :
  reachable p ->
  server p = Finished ->
  handlersStarted p = 0%nat ->
  run evs p = Some p' ->
  mainPc p' <> MainReturned.
Proof.
  intros HR Hs Hh Hrun.
  assert (Hfut : server p' = Finished /\ handlersStarted p' = 0%nat /\
                 reachable p').
  { destruct HR as [evs0 H0].
    assert (HR' : reachable p').
    { exists (evs0 ++ evs)%list. rewrite (run_app _ _ _ _ H0). exact Hrun. }
    assert (HRp : reachable p) by (exists evs0; exact H0).
    clear H0 evs0. revert p HRp Hs Hh Hrun.
    induction evs as [|e evs IH]; cbn [run]; intros p HRp Hs Hh Hrun.
    - inversion Hrun; subst. auto.
    - destruct (step e p) as [p1|] eqn:Es; [|discriminate].
      destruct (reachable_invariants p HRp) as [_ Hinv].
      destruct (server_returned_step e p p1 Hinv Hs Hh Es) as [Hs1 Hh1].
      apply (IH p1); try assumption.
      destruct HRp as [evs0 H0]. exists (evs0 ++ [e])%list.
      rewrite (run_app _ _ _ _ H0). cbn [run]. rewrite Es. reflexivity. }
  destruct Hfut as (Hs' & Hh' & HR').
  destruct (reachable_invariants p' HR')
    as [[Hwg Hcl] (Hle & _ & Hpc & _ & _ & Hret)].
  intros Hpc'. specialize (Hret Hpc').
  unfold mainAdded, clientDone in Hwg. rewrite Hpc' in Hwg.
  destruct (client p'); lia.
Qed.

Lemma main_blocks_forever_after_listen_failure_witness :
  mainPc (mkProg (mkWorld 1 [] false) MainWaiting Finished Finished 0 0)
    <> MainReturned.
Proof.
  apply (main_blocks_forever_after_listen_failure
           (mkProg (mkWorld 2 [] false) MainServerStarted Finished NotStarted 0 0)
           [EvGoClient; EvClientEnd]).
  - exists [EvAdd; EvGoServer; EvServerReturn]. reflexivity.
  - reflexivity.
  - reflexivity.
  - reflexivity.
Defined.

(** ** The client *)

Section ClientProperties.

Variable Int31 : nat -> Z.

(** What [printClientLog] adds. *)
Lemma printClientLog_keeps id msg w :
  wg (printClientLog id msg w) = wg w /\
  stdout (printClientLog id msg w) =
    List.app (stdout w) ["Client[" ++ fmt_d id ++ "]: " ++ msg ++ newline].
Proof. split; reflexivity. Qed.

(** The sending loop makes one [Write] call per turn, on the framed
    [%d] text of the number drawn in that turn, and goes through all
    its turns whatever the writes return. *)
Lemma clientGo_send_calls id k : forall i c w,
  wcalls (fst (clientGo_send Int31 id k i c w)) =
    (rev (map (fun j => framed (fmt_d (Int31 j))) (seq i k)) ++ wcalls c)%list /\
  incoming (fst (clientGo_send Int31 id k i c w)) = incoming c /\
  readDeadline (fst (clientGo_send Int31 id k i c w)) = readDeadline c /\
  clock (fst (clientGo_send Int31 id k i c w)) = clock c /\
  closed (fst (clientGo_send Int31 id k i c w)) = closed c /\
  wg (snd (clientGo_send Int31 id k i c w)) = wg w.
Proof.
  induction k as [|k IH]; intros i c w.
  - cbn. repeat split.
  - cbn [clientGo_send seq map rev].
    destruct (write c (fmt_d (Int31 i))) as [[c1 n] err] eqn:EW.
    apply write_frame in EW. destruct EW as (Hw & Hi & Hd & Hc & Hcl).
    destruct err as [e|];
      match goal with
      | |- context [clientGo_send _ _ _ _ _ ?w1] =>
          destruct (IH (S i) c1 w1) as (H1 & H2 & H3 & H4 & H5 & H6)
      end;
      rewrite H1, H2, H3, H4, H5, H6, Hw;
      (repeat split; try assumption; try reflexivity);
      rewrite <- app_assoc; reflexivity.
Qed.

(** The receiving loop makes no [Write] call, does not close the
    connection and does not touch the WaitGroup. *)
Lemma clientGo_recv_keeps id k : forall c w,
  wcalls (fst (clientGo_recv id k c w)) = wcalls c /\
  closed (fst (clientGo_recv id k c w)) = closed c /\
  wg (snd (clientGo_recv id k c w)) = wg w.
Proof.
  induction k as [|k IH]; intros c w.
  - cbn. repeat split.
  - cbn [clientGo_recv].
    destruct (read c) as [[c1 strResp] err] eqn:ER.
    pose proof (read_frame _ _ _ _ ER) as (_ & Hwc & _ & _ & Hcl & _).
    destruct err as [e|].
    + cbn [fst snd]. repeat split; try assumption.
      destruct (is_EOF e); reflexivity.
    + destruct (IH c1 (printClientLog id
                         ("Received response: " ++ strResp ++ ".") w))
        as (H1 & H2 & H3).
      rewrite H1, H2, H3. repeat split; assumption.
Qed.

(** X17.  [clientGo] signals the WaitGroup exactly once on every path,
    a failed dial included, and closes the connection it dialled
    exactly once; without a connection nothing is closed. *)
Theorem clientGo_signals_once_and_closes
        (id : Z) (dial : Conn + error) (localAddr : string) (w : World) :
  wg (snd (clientGo Int31 id dial localAddr w)) = wg w - 1 /\
  match dial with
  | inl c =>
      exists c', fst (clientGo Int31 id dial localAddr w) = Some c' /\
                 closed c' = S (closed c)
  | inr _ => fst (clientGo Int31 id dial localAddr w) = None
  end.
Proof.
  destruct dial as [c|e]; cbn [clientGo].
  - match goal with
    | |- context [clientGo_send Int31 id requestNumber 0 ?c0 ?w0] =>
        pose proof (clientGo_send_calls id requestNumber 0 c0 w0)
          as (_ & _ & _ & _ & Hcl1 & Hwg1);
        destruct (clientGo_send Int31 id requestNumber 0 c0 w0) as [c1 w1]
    end.
    pose proof (clientGo_recv_keeps id requestNumber c1 w1) as (_ & Hcl2 & Hwg2).
    destruct (clientGo_recv id requestNumber c1 w1) as [c2 w2].
    cbn [fst snd] in *. split.
    + cbn [wg wg_Done wg_Add]. rewrite Hwg2, Hwg1. cbn. lia.
    + eexists. split; [reflexivity|]. cbn [closed Close].
      rewrite Hcl2, Hcl1. reflexivity.
  - split; [|reflexivity]. cbn. lia.
Qed.

(** X18.  A client that has a connection makes exactly [requestNumber]
    (five) [Write] calls, in the order of the numbers drawn, each on the
    [%d] text of its number followed by the delimiter: a write that
    fails is neither made again nor does it stop the later requests. *)
Theorem clientGo_sends_every_request_once
        (id : Z) (c : Conn) (localAddr : string) (w : World) :
  exists c',
    fst (clientGo Int31 id (inl c) localAddr w) = Some c' /\
    wcalls c' =
      (rev (map (fun j => framed (fmt_d (Int31 j))) (seq 0 requestNumber)) ++
       wcalls c)%list.
Proof.
  cbn [clientGo].
  match goal with
  | |- context [clientGo_send Int31 id requestNumber 0 ?c0 ?w0] =>
      pose proof (clientGo_send_calls id requestNumber 0 c0 w0)
        as (Hw1 & _);
      destruct (clientGo_send Int31 id requestNumber 0 c0 w0) as [c1 w1]
  end.
  pose proof (clientGo_recv_keeps id requestNumber c1 w1) as (Hw2 & _).
  destruct (clientGo_recv id requestNumber c1 w1) as [c2 w2].
  cbn [fst snd] in *. eexists. split; [reflexivity|].
  cbn [wcalls Close]. rewrite Hw2, Hw1. reflexivity.
Qed.

End ClientProperties.

Section ClientReceives.

Variable Int31 : nat -> Z.

(** The receiving loop over as many whole messages as it has turns. *)
Lemma clientGo_recv_messages id t rest msgs : forall c w,
  Forall (fun m => ~ In DELIMITER (list_ascii_of_string m)) msgs ->
  incoming c = (requests t msgs ++ rest)%list ->
  before_deadline c t = true ->
  incoming (fst (clientGo_recv id (List.length msgs) c w)) = rest /\
  stdout (snd (clientGo_recv id (List.length msgs) c w)) =
    List.app (stdout w)
      (map (fun m => "Client[" ++ fmt_d id ++ "]: " ++
                     ("Received response: " ++ m ++ ".") ++ newline) msgs).
Proof.
  induction msgs as [|m msgs IH]; intros c w Hno Hin Hdl.
  - cbn. rewrite app_nil_r. split; [exact Hin|reflexivity].
  - inversion Hno as [|? ? Hm Hms]; subst.
    cbn [requests flat_map] in Hin. rewrite <- app_assoc in Hin.
    cbn [List.length clientGo_recv].
    rewrite (read_message t _ (list_ascii_of_string m) c Hm Hin Hdl).
    rewrite string_of_list_ascii_of_string.
    match goal with
    | |- context [clientGo_recv id _ ?c1 ?w1] =>
        destruct (IH c1 w1 Hms) as [H1 H2]; [reflexivity|exact Hdl|]
    end.
    rewrite H1, H2. split; [reflexivity|].
    cbn [map]. unfold printClientLog, printLog. cbn [stdout].
    rewrite <- app_assoc. reflexivity.
Qed.

(** X19.  The client reads exactly [requestNumber] (five) responses:
    with five whole messages on its stream in time, it takes them off
    the stream and prints them in order as its last lines, and what
    follows them on the stream is never read. *)
Theorem clientGo_reads_five_responses
        (id : Z) (c : Conn) (localAddr : string) (w : World)
        (t : Z) (msgs : list string) (rest : list ReadEvent) :
  List.length msgs = requestNumber ->
  Forall (fun m => ~ In DELIMITER (list_ascii_of_string m)) msgs ->
  incoming c = (requests t msgs ++ rest)%list ->
  t <= clock c + 200 * Millisecond + 5 * Millisecond ->
  exists c' lines,
    fst (clientGo Int31 id (inl c) localAddr w) = Some c' /\
    incoming c' = rest /\
    stdout (snd (clientGo Int31 id (inl c) localAddr w)) =
      List.app lines
        (map (fun m => "Client[" ++ fmt_d id ++ "]: " ++
                       ("Received response: " ++ m ++ ".") ++ newline) msgs).
Proof.
  intros Hlen Hno Hin Ht.
  cbn [clientGo].
  match goal with
  | |- context [clientGo_send Int31 id requestNumber 0 ?c0 ?w0] =>
      pose proof (clientGo_send_calls Int31 id requestNumber 0 c0 w0)
        as (_ & Hi1 & Hd1 & _);
      destruct (clientGo_send Int31 id requestNumber 0 c0 w0) as [c1 w1]
  end.
  cbn [fst snd incoming readDeadline clock Sleep SetDeadline SetReadDeadline
       with_incoming] in Hi1, Hd1.
  assert (Hdl : before_deadline c1 t = true).
  { unfold before_deadline. rewrite Hd1. apply Z.leb_le. exact Ht. }
  rewrite Hin in Hi1.
  destruct (clientGo_recv_messages id t rest msgs c1 w1 Hno Hi1 Hdl) as [H1 H2].
  rewrite Hlen in H1, H2.
  destruct (clientGo_recv id requestNumber c1 w1) as [c2 w2].
  cbn [fst snd] in *.
  exists (Close c2), (stdout w1). split; [reflexivity|].
  split; [exact H1|exact H2].
Qed.

End ClientReceives.

Lemma clientGo_reads_five_responses_witness :
  let c := newConn (requests 0 ["a"; "b"; "c"; "d"; "e"] ++ request 0 "f")%list [] in
  exists c' lines,
    fst (clientGo (fun _ => 7) 1 (inl c) "127.0.0.1:40000" world0) = Some c' /\
    incoming c' = request 0 "f" /\
    stdout (snd (clientGo (fun _ => 7) 1 (inl c) "127.0.0.1:40000" world0)) =
      List.app lines
        (map (fun m => "Client[" ++ fmt_d 1 ++ "]: " ++
                       ("Received response: " ++ m ++ ".") ++ newline)
             ["a"; "b"; "c"; "d"; "e"]).
Proof.
  apply (clientGo_reads_five_responses (fun _ => 7) 1
           (newConn (requests 0 ["a"; "b"; "c"; "d"; "e"] ++ request 0 "f")%list [])
           "127.0.0.1:40000" world0 0 ["a"; "b"; "c"; "d"; "e"] (request 0 "f")).
  - reflexivity.
  - repeat constructor; cbn; intuition discriminate.
  - reflexivity.
  - vm_compute. discriminate.
Defined.

(** ** Client and handler on the two ends of one connection *)

Lemma deliver_framed_requests t msgs :
  deliver t (List.concat (map framed msgs)) = requests t msgs.
Proof.
  induction msgs as [|m msgs IH]; [reflexivity|].
  cbn [map List.concat requests flat_map]. rewrite deliver_app, IH. reflexivity.
Qed.

Section ClientAndHandler.

Variable Int31 : nat -> Z.
Variable float64 : Type.
Variable float64_of_int32 : Z -> float64.
Variable math_Cbrt : float64 -> float64.
Variable fmt_f : float64 -> string.

(** With no write failing, the sending loop puts its requests on the
    wire one after the other. *)
Lemma clientGo_send_wire id k : forall i c w,
  wscript c = [] ->
  wscript (fst (clientGo_send Int31 id k i c w)) = [] /\
  wire (fst (clientGo_send Int31 id k i c w)) =
    (wire c ++ List.concat (map (fun j => framed (fmt_d (Int31 j))) (seq i k)))%list.
Proof.
  induction k as [|k IH]; intros i c w Hws.
  - cbn. rewrite app_nil_r. split; [exact Hws|reflexivity].
  - cbn [clientGo_send seq map List.concat].
    unfold write, conn_Write. rewrite Hws.
    match goal with
    | |- context [clientGo_send _ _ _ _ ?c1 ?w1] =>
        destruct (IH (S i) c1 w1) as [H1 H2]; [reflexivity|]
    end.
    rewrite H1, H2. cbn [wire]. unfold framed.
    rewrite <- app_assoc. split; reflexivity.
Qed.

Lemma clientGo_recv_wire id k : forall c w,
  wire (fst (clientGo_recv id k c w)) = wire c.
Proof.
  induction k as [|k IH]; intros c w; [reflexivity|].
  cbn [clientGo_recv].
  destruct (read c) as [[c1 strResp] err] eqn:ER.
  pose proof (read_frame _ _ _ _ ER) as (_ & _ & Hwi & _).
  destruct err as [e|]; [exact Hwi|].
  rewrite IH. exact Hwi.
Qed.

(** X20.  End to end: when the numbers the client draws are
    non-negative 32-bit integers and none of its writes fails, the
    bytes it puts on the wire, read by [handleConn] on the other end,
    are answered by exactly five [Write] calls, in the order the
    numbers were sent, each on the cube-root message of its number
    followed by the delimiter; no request is refused. *)
Theorem client_requests_answered_by_handler
        (id : Z) (c c' : Conn) (localAddr : string) (w : World)
        (cs : Conn) (ws : World) (t : Z) :
  (forall i, (i < requestNumber)%nat -> 0 <= Int31 i <= MaxInt32) ->
  wscript c = [] ->
  fst (clientGo Int31 id (inl c) localAddr w) = Some c' ->
  incoming cs = deliver t (sent_between c c') ->
  t <= clock cs + 10 * Second ->
  exists cs' ws',
    handleConn float64 float64_of_int32 math_Cbrt fmt_f cs ws = Some (cs', ws') /\
    incoming cs' = [] /\
    wcalls cs' =
      (rev (map (fun j =>
                   framed (respMsg_of float64 float64_of_int32 math_Cbrt fmt_f
                                      (Int31 j)))
                (seq 0 requestNumber)) ++ wcalls cs)%list.
Proof.
  intros Hrange Hws Hc' Hin Ht.
  set (msgs := map (fun j => fmt_d (Int31 j)) (seq 0 requestNumber)).
  assert (Hsent : sent_between c c' = List.concat (map framed msgs)).
  { revert Hc'. cbn [clientGo].
    match goal with
    | |- context [clientGo_send Int31 id requestNumber 0 ?c0 ?w0] =>
        destruct (clientGo_send_wire id requestNumber 0 c0 w0) as [_ Hw1];
          [exact Hws|];
        destruct (clientGo_send Int31 id requestNumber 0 c0 w0) as [c1 w1]
    end.
    pose proof (clientGo_recv_wire id requestNumber c1 w1) as Hw2.
    destruct (clientGo_recv id requestNumber c1 w1) as [c2 w2].
    cbn [fst snd wire Sleep SetDeadline SetReadDeadline with_incoming] in *.
    intros H; inversion H; subst c'. unfold sent_between. cbn [wire Close].
    rewrite Hw2, Hw1, skipn_app, skipn_all, Nat.sub_diag.
    unfold msgs. rewrite map_map. reflexivity. }
  rewrite Hsent, deliver_framed_requests in Hin.
  destruct (handleConn_run_requests float64 float64_of_int32 math_Cbrt fmt_f
              cs ws t msgs) as (cs' & ws' & HH & Hi & Hw); try assumption.
  { unfold msgs. apply Forall_forall. intros m Hm.
    apply in_map_iff in Hm. destruct Hm as (j & <- & _).
    apply fmt_d_no_delimiter. }
  exists cs', ws'. split; [exact HH|]. split; [exact Hi|].
  rewrite Hw. f_equal. f_equal. unfold msgs. rewrite map_map.
  apply map_ext_in. intros j Hj. apply in_seq in Hj.
  unfold response_of.
  rewrite (strToInt32_in_range (fmt_d (Int31 j)) (Int31 j) (int_literal_fmt_d _)).
  - reflexivity.
  - specialize (Hrange j). unfold MinInt32. lia.
Qed.

End ClientAndHandler.

Lemma client_requests_answered_by_handler_witness :
  let draw := fun i : nat => Z.of_nat i * 1000 in
  let c := newConn [] [] in
  let c' := Close (fst (clientGo_recv 1 requestNumber
                          (fst (clientGo_send draw 1 requestNumber 0
                                  (SetDeadline (Sleep c (200 * Millisecond))
                                     (200 * Millisecond + 5 * Millisecond))
                                  world0))
                          world0)) in
  let cs := newConn (deliver 0 (sent_between c c')) [] in
  exists cs' ws',
    exampleHandleConn cs world0 = Some (cs', ws') /\
    incoming cs' = [] /\
    wcalls cs' =
      (rev (map (fun j =>
                   framed (respMsg_of unit (fun _ => tt) (fun x => x)
                                      (fun _ => "#") (draw j)))
                (seq 0 requestNumber)) ++ wcalls cs)%list.
Proof.
  intros draw c c' cs.
  apply (client_requests_answered_by_handler
           draw unit (fun _ => tt) (fun x => x) (fun _ => "#")
           1 c c' "127.0.0.1:40000" world0 cs world0 0).
  - intros i Hi. unfold requestNumber in Hi. unfold draw, MaxInt32. lia.
  - reflexivity.
  - reflexivity.
  - reflexivity.
  - vm_compute. discriminate.
Defined.

(** * The loop after a turn that goes on *)

(** A [read] that fails returns the empty string. *)
Lemma read_loop_error_empty fuel : forall c rb buf c' s e,
  read_loop fuel c rb buf = Some (c', s, Some e) -> s = "".
Proof.
  induction fuel as [|fuel IH]; intros c rb buf c' s e; [discriminate|].
  cbn [read_loop].
  destruct (conn_Read c rb) as [[[c1 rb1] n] [e1|]].
  - intros H; inversion H; reflexivity.
  - destruct (Ascii.eqb rb1 DELIMITER); [discriminate|]. apply IH.
Qed.

Lemma read_error_empty c c' s e :
  read c = (c', s, Some e) -> s = "".
Proof.
  intros H. pose proof (read_is_read_loop c) as HR. rewrite H in HR.
  eapply read_loop_error_empty; exact HR.
Qed.

Section LoopGoesOn.

Variable float64 : Type.
Variable float64_of_int32 : Z -> float64.
Variable math_Cbrt : float64 -> float64.
Variable fmt_f : float64 -> string.

Local Abbreviation body := (handleConn_body float64 float64_of_int32 math_Cbrt fmt_f).
Local Abbreviation loop := (handleConn_loop float64 float64_of_int32 math_Cbrt fmt_f).
Local Abbreviation run_handler := (handleConn float64 float64_of_int32 math_Cbrt fmt_f).
Local Abbreviation response := (response_of float64 float64_of_int32 math_Cbrt fmt_f).
Local Abbreviation reaches := (loop_reaches float64 float64_of_int32 math_Cbrt fmt_f).

(** With more turns than the stream is long, the number of turns
    allowed makes no difference to the loop. *)
Lemma handleConn_loop_fuel f1 : forall f2 c w,
  (List.length (incoming c) < f1)%nat ->
  (List.length (incoming c) < f2)%nat ->
  loop f1 c w = loop f2 c w.
Proof.
  induction f1 as [|f1 IH]; intros f2 c w H1 H2; [inversion H1|].
  destruct f2 as [|f2]; [inversion H2|].
  cbn [handleConn_loop].
  destruct (body c w) as [[[|] c1] w1] eqn:EB; [reflexivity|].
  apply (handleConn_body_progress float64 float64_of_int32 math_Cbrt fmt_f) in EB.
  apply IH; lia.
Qed.

(** After a turn that goes on, the handler does with the connection what
    a handler started in the state after that turn does. *)
Lemma handleConn_after_turn c w c2 w2 :
  body c w = (Continue, c2, w2) ->
  run_handler c w = run_handler c2 w2.
Proof.
  intros HB. unfold handleConn, handleConn_fuel.
  cbn [handleConn_loop]. rewrite HB.
  apply (handleConn_body_progress float64 float64_of_int32 math_Cbrt fmt_f) in HB.
  rewrite (handleConn_loop_fuel (List.length (incoming c))
             (S (List.length (incoming c2))) c2 w2); [reflexivity|lia|lia].
Qed.

(** The only turn that breaks the loop is one whose read fails. *)
Lemma handleConn_body_break c w c' w' :
  body c w = (Break, c', w') ->
  exists e, read (SetReadDeadline c (clock c + 10 * Second)) = (c', "", Some e).
Proof.
  unfold handleConn_body.
  destruct (read (SetReadDeadline c (clock c + 10 * Second)))
    as [[c1 strReq] [e|]] eqn:ER.
  - pose proof (read_error_empty _ _ _ _ ER) as Hs. rewrite Hs in ER.
    intros H. exists e. congruence.
  - destruct (strToInt32 strReq) as [intReq [e|]].
    + destruct (write c1 (Error e)) as [[c2 n] err]. discriminate.
    + destruct (write c1 _) as [[c2 n] err]. discriminate.
Qed.

(** The loop ends in a turn, reached through turns that go on, whose
    read fails. *)
Lemma handleConn_loop_ends_at_failed_read fuel : forall c w c' w',
  loop fuel c w = Some (c', w') ->
  exists cl wl e,
    reaches c w cl wl /\
    read (SetReadDeadline cl (clock cl + 10 * Second)) = (c', "", Some e) /\
    body cl wl = (Break, c', w').
Proof.
  induction fuel as [|fuel IH]; intros c w c' w'; [discriminate|].
  cbn [handleConn_loop].
  destruct (body c w) as [[[|] c1] w1] eqn:EB.
  - intros H; inversion H; subst.
    destruct (handleConn_body_break c w c' w' EB) as [e He].
    exists c, w, e. split; [apply reaches_here|]. split; assumption.
  - intros H. destruct (IH c1 w1 c' w' H) as (cl & wl & e & HR & He & Hb).
    exists cl, wl, e. split; [|split; assumption].
    eapply reaches_later; eassumption.
Qed.

(** [handleConn] closes the connection only after a read has failed, in
    a turn reached from its first one. *)
Lemma handleConn_ends_at_failed_read c w :
  exists cf wf cl wl e,
    run_handler c w = Some (Close cf, wg_Done wf) /\
    reaches c w cl wl /\
    read (SetReadDeadline cl (clock cl + 10 * Second)) = (cf, "", Some e) /\
    body cl wl = (Break, cf, wf).
Proof.
  unfold handleConn, handleConn_fuel.
  destruct (loop (S (List.length (incoming c))) c w) as [[cf wf]|] eqn:E.
  - destruct (handleConn_loop_ends_at_failed_read _ _ _ _ _ E)
      as (cl & wl & e & HR & He & Hb).
    exists cf, wf, cl, wl, e. repeat split; assumption.
  - exfalso. revert E.
    apply (handleConn_loop_total float64 float64_of_int32 math_Cbrt fmt_f). lia.
Qed.

End LoopGoesOn.

(** * The turns that answer and go on, and the idle timeout *)

Section HandlerTurns.

Variable float64 : Type.
Variable float64_of_int32 : Z -> float64.
Variable math_Cbrt : float64 -> float64.
Variable fmt_f : float64 -> string.

Local Abbreviation body := (handleConn_body float64 float64_of_int32 math_Cbrt fmt_f).
Local Abbreviation loop := (handleConn_loop float64 float64_of_int32 math_Cbrt fmt_f).
Local Abbreviation run_handler := (handleConn float64 float64_of_int32 math_Cbrt fmt_f).
Local Abbreviation respMsg := (respMsg_of float64 float64_of_int32 math_Cbrt fmt_f).
Local Abbreviation response := (response_of float64 float64_of_int32 math_Cbrt fmt_f).
Local Abbreviation reaches := (loop_reaches float64 float64_of_int32 math_Cbrt fmt_f).

(** What follows a turn that has made its one [Write] call on [sent]
    and goes on with the stream as the read left it. *)
Lemma handleConn_goes_on c w c1 c2 w2 sent :
  body c w = (Continue, c2, w2) ->
  wcalls c2 = sent :: wcalls c ->
  incoming c2 = incoming c1 ->
  clock c2 = clock c1 ->
  (forall fuel, loop (S fuel) c w = loop fuel c2 w2) /\
  run_handler c w = run_handler c2 w2 /\
  (exists cf wf cl wl e',
     run_handler c w = Some (Close cf, wg_Done wf) /\
     reaches c2 w2 cl wl /\
     read (SetReadDeadline cl (clock cl + 10 * Second)) = (cf, "", Some e') /\
     body cl wl = (Break, cf, wf)) /\
  (forall t m rest,
     ~ In DELIMITER (list_ascii_of_string m) ->
     incoming c1 = (request t m ++ rest)%list ->
     t <= clock c1 + 10 * Second ->
     exists c3 w3,
       body c2 w2 = (Continue, c3, w3) /\
       incoming c3 = rest /\
       wcalls c3 = framed (response m) :: sent :: wcalls c).
Proof.
  intros HB Hw Hi Hc.
  pose proof (handleConn_after_turn float64 float64_of_int32 math_Cbrt fmt_f
                c w c2 w2 HB) as Hrun.
  split; [|split; [exact Hrun|split]].
  - intros fuel. cbn [handleConn_loop]. rewrite HB. reflexivity.
  - destruct (handleConn_ends_at_failed_read float64 float64_of_int32
                math_Cbrt fmt_f c2 w2) as (cf & wf & cl & wl & e' & H1 & H2 & H3 & H4).
    exists cf, wf, cl, wl, e'. rewrite Hrun. repeat split; assumption.
  - intros t m rest Hm Hin Ht. rewrite <- Hi in Hin. rewrite <- Hc in Ht.
    destruct (handleConn_body_request float64 float64_of_int32 math_Cbrt fmt_f
                c2 w2 t m rest Hm Hin Ht) as (c3 & w3 & HB3 & Hi3 & Hw3 & _).
    exists c3, w3. rewrite Hw3, Hw. repeat split; assumption.
Qed.


(** C1 (as the code has it): when the write of the response fails,
    the turn prints the write error and the "Sent response" line, has
    made that one [Write] call and no other, does not close the
    connection and leaves the stream as the read left it.  The loop
    goes on: the handler does from there what it does on the rest of
    the stream, it reads and answers the next request when one is
    there in time (the failed response is not written again), and it
    ends, closing the connection, only in a later turn whose read
    fails. *)
Theorem response_write_failure_loop_continues
        (c c1 c2 : Conn) (w : World) (strReq : string) (intReq n : Z)
        (e : error) :
  read (SetReadDeadline c (clock c + 10 * Second)) = (c1, strReq, None) ->
  strToInt32 strReq = (intReq, None) ->
  write c1 (respMsg intReq) = (c2, n, Some e) ->
  let w2 :=
    printServerLog
      ("Sent response (written " ++ fmt_d n ++ " bytes): " ++
       respMsg intReq ++ ".")
      (printServerLog ("Write Error: " ++ Error e)
         (printServerLog ("Received request: " ++ strReq ++ ".") w)) in
  body c w = (Continue, c2, w2) /\
  wcalls c2 = framed (respMsg intReq) :: wcalls c /\
  closed c2 = closed c /\
  incoming c2 = incoming c1 /\
  (forall fuel, loop (S fuel) c w = loop fuel c2 w2) /\
  run_handler c w = run_handler c2 w2 /\
  (exists cf wf cl wl e',
     run_handler c w = Some (Close cf, wg_Done wf) /\
     reaches c2 w2 cl wl /\
     read (SetReadDeadline cl (clock cl + 10 * Second)) = (cf, "", Some e') /\
     body cl wl = (Break, cf, wf)) /\
  (forall t m rest,
     ~ In DELIMITER (list_ascii_of_string m) ->
     incoming c1 = (request t m ++ rest)%list ->
     t <= clock c1 + 10 * Second ->
     exists c3 w3,
       body c2 w2 = (Continue, c3, w3) /\
       incoming c3 = rest /\
       wcalls c3 = framed (response m) :: framed (respMsg intReq) :: wcalls c).
Proof.
  intros ER EP EW w2.
  pose proof (read_frame _ _ _ _ ER) as (_ & Hwc & _ & _ & Hcl & _).
  cbn [wcalls closed SetReadDeadline] in Hwc, Hcl.
  pose proof (write_frame _ _ _ _ _ EW) as (Hw & Hi & _ & Hck & Hc).
  assert (HB : body c w = (Continue, c2, w2)).
  { unfold handleConn_body. rewrite ER, EP, EW. reflexivity. }
  assert (Hw2 : wcalls c2 = framed (respMsg intReq) :: wcalls c).
  { rewrite Hw, Hwc. reflexivity. }
  split; [exact HB|].
  split; [exact Hw2|].
  split; [rewrite Hc, Hcl; reflexivity|].
  split; [exact Hi|].
  exact (handleConn_goes_on c w c1 c2 w2 _ HB Hw2 Hi Hck).
Qed.


End HandlerTurns.

(** ** The three theorems at concrete connections *)


Lemma response_write_failure_loop_continues_witness :
  let c := newConn (request 0 "8" ++ request 0 "27")%list
                   [WriteFail 0 (NetError false "broken pipe")] in
  let c1 := with_incoming (SetReadDeadline c (clock c + 10 * Second))
                          (request 0 "27") 0 in
  let c2 := fst (fst (write c1 "The cube root of 8 is #.")) in
  let w2 :=
    printServerLog
      ("Sent response (written " ++ fmt_d 0 ++ " bytes): " ++
       respMsg_of unit (fun _ => tt) (fun x => x) (fun _ => "#") 8 ++ ".")
      (printServerLog ("Write Error: " ++ Error (NetError false "broken pipe"))
         (printServerLog ("Received request: " ++ "8" ++ ".") world0)) in
  exampleBody c world0 = (Continue, c2, w2) /\
  wcalls c2 =
    framed (respMsg_of unit (fun _ => tt) (fun x => x) (fun _ => "#") 8)
      :: wcalls c /\
  closed c2 = closed c /\
  incoming c2 = incoming c1 /\
  (forall fuel,
     handleConn_loop unit (fun _ => tt) (fun x => x) (fun _ => "#")
                     (S fuel) c world0 =
     handleConn_loop unit (fun _ => tt) (fun x => x) (fun _ => "#")
                     fuel c2 w2) /\
  exampleHandleConn c world0 = exampleHandleConn c2 w2 /\
  (exists cf wf cl wl e',
     exampleHandleConn c world0 = Some (Close cf, wg_Done wf) /\
     loop_reaches unit (fun _ => tt) (fun x => x) (fun _ => "#") c2 w2 cl wl /\
     read (SetReadDeadline cl (clock cl + 10 * Second)) = (cf, "", Some e') /\
     exampleBody cl wl = (Break, cf, wf)) /\
  (forall t m rest,
     ~ In DELIMITER (list_ascii_of_string m) ->
     incoming c1 = (request t m ++ rest)%list ->
     t <= clock c1 + 10 * Second ->
     exists c3 w3,
       exampleBody c2 w2 = (Continue, c3, w3) /\
       incoming c3 = rest /\
       wcalls c3 =
         framed (response_of unit (fun _ => tt) (fun x => x) (fun _ => "#") m)
           :: framed (respMsg_of unit (fun _ => tt) (fun x => x) (fun _ => "#") 8)
           :: wcalls c).
Proof.
  intros c c1 c2 w2.
  apply (response_write_failure_loop_continues
           unit (fun _ => tt) (fun x => x) (fun _ => "#")
           c c1 c2 world0 "8" 8 0 (NetError false "broken pipe")).
  - reflexivity.
  - reflexivity.
  - reflexivity.
Defined.


